(** * TSCSyncer: cross-core cycle-counter synchronisation

    A shallow embedding of [ForgedInvariant/TSCSyncer.cpp] and the
    properties of its rendezvous round, its orchestrator [syncAll], its
    three hooks and its capability detection.

    Conventions.
    - Unsigned machine integers are [Z] with the wrap-around written out.
    - Every C11 atomic operation of the source is one indivisible step;
      threads and cores interleave at the granularity of those steps.
    - Calls that leave this file (the routed original routines and the
      rendezvous executor) are recorded, in order, in a call log. *)

From Stdlib Require Import ZArith Lia Permutation.
From stdpp Require Import base tactics option list strings.

Local Open Scope Z_scope.

(** ** Constants (lines 36-54 of the source) *)

Definition getBit (n : Z) : Z := Z.shiftl 1 n.

Definition MSR_TSC : Z := 0x10.
Definition MSR_TSC_ADJUST : Z := 0x3B.
Definition MSR_HWCR : Z := 0xC0010015.
Definition MSR_CORE_THREAD_COUNT : Z := 0x35.

Definition MSR_HWCR_LOCK_TSC_TO_CURR_P0 : Z := getBit 21.
Definition CPUID_LEAF7_TSC_ADJUST : Z := getBit 1.
Definition CPUID_FEATURE_HTT : Z := getBit 28.

Definition PERIODIC_SYNC_INTERVAL : Z := 5000.

Definition kIOPMTracePointSleepCPUs : Z := 0x18.
Definition kIOPMTracePointWakePlatformActions : Z := 0x22.

Definition wrap32 (x : Z) : Z := x mod 2 ^ 32.

(** ** Data model *)

Record Caps := mkCaps { amd17h : bool; tscAdjust : bool }.

(** The [IOTimerEventSource] the object owns: whether the source is
    enabled and the timeout it is armed with, if any. *)
Record Timer := mkTimer { enabled : bool; timeoutMS : option Z }.

(** Modelled from the spec: the fields of [class TSCForger], declared in
    [TSCSyncer.hpp].  [threadCount] and [threadsEngaged] are unsigned
    32-bit integers, [targetTSC] an unsigned 64-bit integer, the three
    status flags atomic booleans and [timer] a nullable pointer. *)
Record TSCForger := mkForger {
  caps : Caps;
  threadCount : Z;
  systemAwake : bool;
  synchronised : bool;
  synchronising : bool;
  threadsEngaged : Z;
  targetTSC : Z;
  timer : option Timer;
}.

Definition set_caps (v : Caps) (me : TSCForger) : TSCForger :=
  mkForger v (threadCount me) (systemAwake me) (synchronised me)
    (synchronising me) (threadsEngaged me) (targetTSC me) (timer me).
Definition set_threadCount (v : Z) (me : TSCForger) : TSCForger :=
  mkForger (caps me) v (systemAwake me) (synchronised me)
    (synchronising me) (threadsEngaged me) (targetTSC me) (timer me).
Definition set_systemAwake (v : bool) (me : TSCForger) : TSCForger :=
  mkForger (caps me) (threadCount me) v (synchronised me)
    (synchronising me) (threadsEngaged me) (targetTSC me) (timer me).
Definition set_synchronised (v : bool) (me : TSCForger) : TSCForger :=
  mkForger (caps me) (threadCount me) (systemAwake me) v
    (synchronising me) (threadsEngaged me) (targetTSC me) (timer me).
Definition set_synchronising (v : bool) (me : TSCForger) : TSCForger :=
  mkForger (caps me) (threadCount me) (systemAwake me) (synchronised me)
    v (threadsEngaged me) (targetTSC me) (timer me).
Definition set_threadsEngaged (v : Z) (me : TSCForger) : TSCForger :=
  mkForger (caps me) (threadCount me) (systemAwake me) (synchronised me)
    (synchronising me) v (targetTSC me) (timer me).
Definition set_targetTSC (v : Z) (me : TSCForger) : TSCForger :=
  mkForger (caps me) (threadCount me) (systemAwake me) (synchronised me)
    (synchronising me) (threadsEngaged me) v (timer me).
Definition set_timer (v : option Timer) (me : TSCForger) : TSCForger :=
  mkForger (caps me) (threadCount me) (systemAwake me) (synchronised me)
    (synchronising me) (threadsEngaged me) (targetTSC me) v.

(** The model-specific registers of one core that the source accesses
    from within a round:
    the cycle counter ([MSR_TSC], also what [rdtsc64] reads) and the
    hardware configuration register ([MSR_HWCR]).  The counter is a
    register that is read and written; its ticking between two
    operations of a round is not modelled. *)
Record Core := mkCore { msr_tsc : Z; msr_hwcr : Z }.

Definition rdtsc64 (c : Core) : Z := msr_tsc c.

Definition rdmsr64 (msr : Z) (c : Core) : Z :=
  if msr =? MSR_TSC then msr_tsc c
  else if msr =? MSR_HWCR then msr_hwcr c
  else 0.

Definition wrmsr64 (msr : Z) (v : Z) (c : Core) : Core :=
  if msr =? MSR_TSC then mkCore v (msr_hwcr c)
  else if msr =? MSR_HWCR then mkCore (msr_tsc c) v
  else c.

(** ** The round action [TSCForger::sync] (lines 62-85) *)

(** [__c11_atomic_fetch_max]: the value left in the shared cell. *)
Definition fetch_max (cell candidate : Z) : Z := Z.max cell candidate.

Definition lockFreq (me : TSCForger) (c : Core) : Core :=
  if amd17h (caps me)
  then wrmsr64 MSR_HWCR
         (Z.lor (rdmsr64 MSR_HWCR c) MSR_HWCR_LOCK_TSC_TO_CURR_P0) c
  else c.

(** Where a core stands inside [sync]. *)
Inductive SyncPC :=
| AtLockFreq    (* line 71 *)
| AtFetchMax    (* line 74 *)
| AtFetchAdd    (* line 77 *)
| AtSpin        (* line 78, one evaluation of the loop condition *)
| AtWrite       (* line 84 *)
| SyncReturned.

Definition sync_step (me : TSCForger) (pc : SyncPC) (c : Core)
  : TSCForger * SyncPC * Core :=
  match pc with
  | AtLockFreq => (me, AtFetchMax, lockFreq me c)
  | AtFetchMax =>
      (set_targetTSC (fetch_max (targetTSC me) (rdtsc64 c)) me, AtFetchAdd, c)
  | AtFetchAdd =>
      (set_threadsEngaged (wrap32 (threadsEngaged me + 1)) me, AtSpin, c)
  | AtSpin =>
      if threadsEngaged me =? threadCount me
      then (me, AtWrite, c)
      else (me, AtSpin, c)
  | AtWrite => (me, SyncReturned, wrmsr64 MSR_TSC (targetTSC me) c)
  | SyncReturned => (me, SyncReturned, c)
  end.

(** A rendezvous in flight: the shared object and, per participating
    core, its position in [sync] and its registers. *)
Record Rendezvous := mkRendezvous {
  shared : TSCForger;
  engines : list (SyncPC * Core);
}.

(** Core [i] performs its next step. *)
Definition engine_step (i : nat) (r : Rendezvous) : Rendezvous :=
  match engines r !! i with
  | Some (pc, c) =>
      let '(me', pc', c') := sync_step (shared r) pc c in
      mkRendezvous me' (<[i := (pc', c')]> (engines r))
  | None => r
  end.

(** A schedule names the core that moves next, step after step. *)
Definition run_schedule (sched : list nat) (r : Rendezvous) : Rendezvous :=
  foldl (fun r i => engine_step i r) r sched.

Definition enter_rendezvous (me : TSCForger) (cores : list Core) : Rendezvous :=
  mkRendezvous me ((fun c => (AtLockFreq, c)) <$> cores).

Definition is_returned (pc : SyncPC) : bool :=
  match pc with SyncReturned => true | _ => false end.

Definition all_returned (r : Rendezvous) : bool :=
  forallb (fun e => is_returned (fst e)) (engines r).

(** Past line 77: the core has been counted in [threadsEngaged]. *)
Definition has_arrived (pc : SyncPC) : bool :=
  match pc with AtSpin | AtWrite | SyncReturned => true | _ => false end.

(** Past line 74: the core has proposed its candidate. *)
Definition has_proposed (pc : SyncPC) : bool :=
  match pc with AtLockFreq | AtFetchMax => false | _ => true end.

(** Past the barrier of line 78. *)
Definition has_passed (pc : SyncPC) : bool :=
  match pc with AtWrite | SyncReturned => true | _ => false end.

Definition is_spinning (pc : SyncPC) : bool :=
  match pc with AtSpin => true | _ => false end.

Fixpoint tally (p : SyncPC -> bool) (l : list (SyncPC * Core)) : nat :=
  match l with
  | [] => 0%nat
  | (pc, _) :: l' => ((if p pc then 1 else 0) + tally p l')%nat
  end.

(** [t] is the maximum of the list [l]. *)
Definition is_maximum (t : Z) (l : list Z) : Prop :=
  t ∈ l /\ forall x, x ∈ l -> x <= t.

Definition valid_tsc (c : Core) : Prop := 0 <= msr_tsc c < 2 ^ 64.

(** What holds of a rendezvous entered from the object [me0] on the
    cores [cores0], whatever the interleaving. *)
Record round_inv (me0 : TSCForger) (cores0 : list Core) (r : Rendezvous) : Prop :=
  mkRoundInv {
  inv_length : length (engines r) = length cores0;
  inv_count : threadCount (shared r) = threadCount me0;
  inv_engaged :
    threadsEngaged (shared r) = Z.of_nat (tally has_arrived (engines r));
  inv_target :
    targetTSC me0 = 0 ->
    targetTSC (shared r) = 0 \/ targetTSC (shared r) ∈ msr_tsc <$> cores0;
  inv_tsc : forall i pc c c0,
    engines r !! i = Some (pc, c) -> cores0 !! i = Some c0 ->
    is_returned pc = false -> msr_tsc c = msr_tsc c0;
  inv_proposed : forall i pc c c0,
    engines r !! i = Some (pc, c) -> cores0 !! i = Some c0 ->
    has_proposed pc = true -> msr_tsc c0 <= targetTSC (shared r);
  inv_passed : forall i pc c,
    engines r !! i = Some (pc, c) -> has_passed pc = true ->
    threadCount me0 <= Z.of_nat (tally has_arrived (engines r));
  inv_overshoot :
    threadCount me0 < Z.of_nat (tally has_arrived (engines r)) ->
    exists i c, engines r !! i = Some (AtSpin, c);
  inv_written :
    Forall valid_tsc cores0 -> targetTSC me0 = 0 ->
    Z.of_nat (length cores0) = threadCount me0 ->
    forall i c, engines r !! i = Some (SyncReturned, c) ->
    is_maximum (msr_tsc c) (msr_tsc <$> cores0);
}.

(** Steps a core still has to take once the barrier is open. *)
Definition steps_left (pc : SyncPC) : nat :=
  match pc with
  | AtLockFreq => 5 | AtFetchMax => 4 | AtFetchAdd => 3
  | AtSpin => 2 | AtWrite => 1 | SyncReturned => 0
  end%nat.

Fixpoint work_left (l : list (SyncPC * Core)) : nat :=
  match l with
  | [] => 0%nat
  | (pc, _) :: l' => (steps_left pc + work_left l')%nat
  end.

(** ** The machine, the call log and non-returning calls *)

(** A call that leaves the translation unit: the three routed originals
    with the arguments they receive (pointers as addresses), and the
    kernel's rendezvous executor. *)
Inductive Call :=
| OrgXcpmUrgency (urgency rtPeriod rtDeadline : Z)
| OrgTracePoint (that point : Z)
| OrgClockGetCalendarMicrotime (secs microsecs : Z)
| MpRendezvousNoIntrs.

Record Machine := mkMachine {
  self : TSCForger;          (* the singleton [instance] *)
  cpus : list Core;          (* the cores the kernel runs the action on *)
  calls : list Call;         (* oldest first *)
}.

Definition update_self (f : TSCForger -> TSCForger) (m : Machine) : Machine :=
  mkMachine (f (self m)) (cpus m) (calls m).

Definition log_call (c : Call) (m : Machine) : Machine :=
  mkMachine (self m) (cpus m) (calls m ++ [c]).

(** A [void] routine either returns, leaving a machine state, or never
    does (a core spins in the barrier for ever). *)
Inductive Result :=
| Returns (m : Machine)
| Hangs (m : Machine).

Definition and_then (r : Result) (k : Machine -> Result) : Result :=
  match r with
  | Returns m => k m
  | Hangs m => Hangs m
  end.

Notation "r >>> k" := (and_then r k) (at level 61, left associativity).

Definition state_of (r : Result) : Machine :=
  match r with Returns m | Hangs m => m end.

Definition returns (r : Result) : bool :=
  match r with Returns _ => true | Hangs _ => false end.

(** [mp_rendezvous_no_intrs(sync, nullptr)]: every core of the machine
    runs [sync]; the executor returns once all of them have.  The
    interleaving of the cores is the parameter [sched]. *)
Definition mp_rendezvous_no_intrs (sched : list nat) (m : Machine) : Result :=
  let m0 := log_call MpRendezvousNoIntrs m in
  let r := run_schedule sched (enter_rendezvous (self m0) (cpus m0)) in
  let m' := mkMachine (shared r) (snd <$> engines r) (calls m0) in
  if all_returned r then Returns m' else Hangs m'.

(** ** The orchestrator [TSCForger::syncAll] (lines 87-106) *)

(** [atomic_exchange(&synchronising, v)]: the old value and the new state. *)
Definition exchange_synchronising (v : bool) (m : Machine) : bool * Machine :=
  (synchronising (self m), update_self (set_synchronising v) m).

Definition syncAll (sched : list nat) (timer : bool) (m : Machine) : Result :=
  if negb (systemAwake (self m)) then Returns m
  else if negb timer && synchronised (self m) then Returns m
  else
    let '(held, m1) := exchange_synchronising true m in
    if held then Returns m1
    else
      let m2 := update_self (set_synchronised false) m1 in
      let m3 := update_self (set_threadsEngaged 0) m2 in
      let m4 := update_self (set_targetTSC 0) m3 in
      mp_rendezvous_no_intrs sched m4 >>> fun m5 =>
      let m6 := update_self (set_synchronising false) m5 in
      Returns (update_self (set_synchronised true) m6).

(** The same routine one atomic operation at a time, for callers that
    run concurrently. *)
Inductive SyncAllPC :=
| AtLoadAwake          (* line 89 *)
| AtLoadSynchronised   (* line 90 *)
| AtExchange           (* line 91 *)
| AtClearSynchronised  (* line 95 *)
| AtResetEngaged       (* line 98 *)
| AtResetTarget        (* line 99 *)
| AtRendezvous         (* line 102 *)
| AtReleaseGate        (* line 104 *)
| AtSetSynchronised    (* line 105 *)
| ReturnedEarly        (* line 92 *)
| ReturnedAfterRound   (* line 106 *)
| Stalled.             (* inside line 102 for ever *)

Definition syncAll_step (sched : list nat) (timer : bool)
    (pc : SyncAllPC) (m : Machine) : SyncAllPC * Machine :=
  match pc with
  | AtLoadAwake =>
      if negb (systemAwake (self m)) then (ReturnedEarly, m)
      else (AtLoadSynchronised, m)
  | AtLoadSynchronised =>
      if negb timer && synchronised (self m) then (ReturnedEarly, m)
      else (AtExchange, m)
  | AtExchange =>
      let '(held, m1) := exchange_synchronising true m in
      if held then (ReturnedEarly, m1) else (AtClearSynchronised, m1)
  | AtClearSynchronised => (AtResetEngaged, update_self (set_synchronised false) m)
  | AtResetEngaged => (AtResetTarget, update_self (set_threadsEngaged 0) m)
  | AtResetTarget => (AtRendezvous, update_self (set_targetTSC 0) m)
  | AtRendezvous =>
      match mp_rendezvous_no_intrs sched m with
      | Returns m' => (AtReleaseGate, m')
      | Hangs m' => (Stalled, m')
      end
  | AtReleaseGate => (AtSetSynchronised, update_self (set_synchronising false) m)
  | AtSetSynchronised => (ReturnedAfterRound, update_self (set_synchronised true) m)
  | ReturnedEarly => (ReturnedEarly, m)
  | ReturnedAfterRound => (ReturnedAfterRound, m)
  | Stalled => (Stalled, m)
  end.

Fixpoint syncAll_steps (n : nat) (sched : list nat) (timer : bool)
    (pc : SyncAllPC) (m : Machine) : SyncAllPC * Machine :=
  match n with
  | O => (pc, m)
  | S n' =>
      let '(pc', m') := syncAll_step sched timer pc m in
      syncAll_steps n' sched timer pc' m'
  end.

(** One thread inside [syncAll]: its argument, the interleaving its
    rendezvous will see, and where it stands. *)
Record Caller := mkCaller {
  arg_timer : bool;
  arg_sched : list nat;
  at_pc : SyncAllPC;
}.

Record Kernel := mkKernel {
  machine : Machine;
  callers : list Caller;
}.

Definition caller_step (i : nat) (k : Kernel) : Kernel :=
  match callers k !! i with
  | Some c =>
      let '(pc', m') := syncAll_step (arg_sched c) (arg_timer c) (at_pc c) (machine k) in
      mkKernel m' (<[i := mkCaller (arg_timer c) (arg_sched c) pc']> (callers k))
  | None => k
  end.

Definition interleave (order : list nat) (k : Kernel) : Kernel :=
  foldl (fun k i => caller_step i k) k order.

Definition invoke (m : Machine) (args : list (bool * list nat)) : Kernel :=
  mkKernel m ((fun a => mkCaller (fst a) (snd a) AtLoadAwake) <$> args).

(** Between a successful exchange (line 91) and the release of the gate
    (line 104). *)
Definition holds_gate (pc : SyncAllPC) : bool :=
  match pc with
  | AtClearSynchronised | AtResetEngaged | AtResetTarget
  | AtRendezvous | AtReleaseGate | Stalled => true
  | _ => false
  end.

(** From the first store of line 95 up to the release of the gate: the
    round of this caller is in progress. *)
Definition round_in_progress (pc : SyncAllPC) : bool :=
  match pc with
  | AtResetEngaged | AtResetTarget | AtRendezvous | AtReleaseGate | Stalled => true
  | _ => false
  end.

Definition performed_round (pc : SyncAllPC) : bool :=
  match pc with
  | AtReleaseGate | AtSetSynchronised | ReturnedAfterRound => true
  | _ => false
  end.

Fixpoint gate_holders (cs : list Caller) : nat :=
  match cs with
  | [] => 0%nat
  | c :: cs' => ((if holds_gate (at_pc c) then 1 else 0) + gate_holders cs')%nat
  end.

Fixpoint rounds_performed (cs : list Caller) : nat :=
  match cs with
  | [] => 0%nat
  | c :: cs' => ((if performed_round (at_pc c) then 1 else 0) + rounds_performed cs')%nat
  end.


(** ** Timer (lines 215-232) *)

Definition timer_enable (t : Timer) : Timer := mkTimer true (timeoutMS t).
Definition timer_disable (t : Timer) : Timer := mkTimer false (timeoutMS t).
Definition timer_setTimeoutMS (ms : Z) (t : Timer) : Timer := mkTimer (enabled t) (Some ms).
Definition timer_cancelTimeout (t : Timer) : Timer := mkTimer (enabled t) None.

Definition startTimer (me : TSCForger) : TSCForger :=
  match timer me with
  | Some t => set_timer (Some (timer_setTimeoutMS PERIODIC_SYNC_INTERVAL (timer_enable t))) me
  | None => me
  end.

Definition stopTimer (me : TSCForger) : TSCForger :=
  match timer me with
  | Some t => set_timer (Some (timer_disable (timer_cancelTimeout t))) me
  | None => me
  end.

(** [sender] is the object's own timer, the only one ever created. *)
Definition timerAction (sched : list nat) (m : Machine) : Result :=
  syncAll sched true m >>> fun m1 =>
  Returns (update_self (fun me =>
    set_timer (option_map (timer_setTimeoutMS PERIODIC_SYNC_INTERVAL) (timer me)) me) m1).

Fixpoint timer_fires (n : nat) (sched : list nat) (m : Machine) : Result :=
  match n with
  | O => Returns m
  | S n' => timerAction sched m >>> timer_fires n' sched
  end.

(** ** Hooks (lines 110-138) *)

Definition wrapXcpmUrgency (urgency rtPeriod rtDeadline : Z) (m : Machine) : Result :=
  if negb (synchronised (self m)) then Returns m
  else Returns (log_call (OrgXcpmUrgency urgency rtPeriod rtDeadline) m).

Definition wrapTracePoint (sched : list nat) (that point : Z) (m : Machine) : Result :=
  (if point =? kIOPMTracePointSleepCPUs then
     let m1 := update_self (set_systemAwake false) m in
     let m2 := update_self (set_synchronised false) m1 in
     Returns (update_self stopTimer m2)
   else if point =? kIOPMTracePointWakePlatformActions then
     let m1 := update_self (set_systemAwake true) m in
     syncAll sched false m1 >>> fun m2 =>
     Returns (update_self startTimer m2)
   else Returns m) >>> fun m' =>
  Returns (log_call (OrgTracePoint that point) m').

Definition wrapClockGetCalendarMicrotime (sched : list nat) (secs microsecs : Z)
    (m : Machine) : Result :=
  syncAll sched false m >>> fun m1 =>
  Returns (log_call (OrgClockGetCalendarMicrotime secs microsecs) m1).

(** ** Capability detection, [TSCForger::init] (lines 156-213) *)

Inductive CpuVendor := VendorUnknown | VendorAMD | VendorIntel.

Record CpuidRegs := mkRegs { eax : Z; ebx : Z; ecx : Z; edx : Z }.

(** What the hardware queries of [init] answer: the vendor, family and
    model of [BaseDeviceInfo]; [getCpuid leaf subleaf], [None] when the
    query fails; the value read from [MSR_CORE_THREAD_COUNT]; and
    whether [timerEventSource] hands back a timer. *)
Record Hardware := mkHardware {
  cpuVendor : CpuVendor;
  cpuFamily : Z;
  cpuModel : Z;
  getCpuid : Z -> Z -> option CpuidRegs;
  core_thread_count : Z;
  timer_created : bool;
}.

Definition CPU_MODEL_PENRYN : Z := 0x17.

(** The bit-fields [family] and [extendedFamily] of [CpuVersion]. *)
Definition version_family (raw : Z) : Z := Z.land (Z.shiftr raw 8) 0xF.
Definition version_extendedFamily (raw : Z) : Z := Z.land (Z.shiftr raw 20) 0xFF.

Definition detect_amd (hw : Hardware) (me : TSCForger) : TSCForger :=
  let me1 :=
    match getCpuid hw 0x80000008 0 with
    | Some r => set_threadCount (wrap32 (Z.land (ecx r) 0xFF + 1)) me
    | None => me
    end in
  match getCpuid hw 1 0 with
  | Some r =>
      let family := version_family (eax r) in
      let family :=
        if family =? 0xF then wrap32 (family + version_extendedFamily (eax r))
        else family in
      set_caps (mkCaps (0x17 <=? family) (tscAdjust (caps me1))) me1
  | None => me1
  end.

Definition detect_intel (hw : Hardware) (me : TSCForger) : TSCForger :=
  let adjust :=
    match getCpuid hw 7 0 with
    | Some r => negb (Z.land (ebx r) CPUID_LEAF7_TSC_ADJUST =? 0)
    | None => false
    end in
  let me1 := set_caps (mkCaps (amd17h (caps me)) adjust) me in
  if (6 <? cpuFamily hw) || ((cpuFamily hw =? 6) && (CPU_MODEL_PENRYN <? cpuModel hw))
  then set_threadCount (wrap32 (Z.land (core_thread_count hw) 0xFFFF)) me1
  else me1.

Definition detect_fallback (hw : Hardware) (me : TSCForger) : TSCForger :=
  if threadCount me =? 0 then
    match getCpuid hw 1 0 with
    | Some r =>
        let features := Z.lor (Z.shiftl (ecx r) 32) (edx r) in
        set_threadCount
          (if negb (Z.land features CPUID_FEATURE_HTT =? 0)
           then Z.land (Z.shiftr (ebx r) 16) 0xFF
           else 1) me
    | None => set_threadCount 1 me
    end
  else me.

Definition init (hw : Hardware) (me : TSCForger) : TSCForger :=
  let me1 :=
    match cpuVendor hw with
    | VendorAMD => detect_amd hw me
    | VendorIntel => detect_intel hw me
    | VendorUnknown => me
    end in
  let me2 := detect_fallback hw me1 in
  let me3 :=
    set_timer (if timer_created hw then Some (mkTimer false None) else None) me2 in
  startTimer me3.

(** Modelled from the spec: the default member initialisers of
    [TSCSyncer.hpp], the state of the singleton before [init].  Nothing
    is detected yet (thread count 0, capabilities false), the system is
    awake, counters are not known to be aligned, no round is in progress
    and there is no timer. *)
Definition instance : TSCForger :=
  mkForger (mkCaps false false) 0 true false false 0 0 None.

Definition valid_regs (r : CpuidRegs) : Prop :=
  0 <= eax r < 2 ^ 32 /\ 0 <= ebx r < 2 ^ 32 /\
  0 <= ecx r < 2 ^ 32 /\ 0 <= edx r < 2 ^ 32.

Definition valid_hardware (hw : Hardware) : Prop :=
  (forall leaf sub r, getCpuid hw leaf sub = Some r -> valid_regs r) /\
  0 <= core_thread_count hw < 2 ^ 64.

(** ** Vocabulary of the statements *)

(** The condition of the [if] of lines 89-91 as a value: the exchange
    yields the flag it found. *)
Definition guard (timer : bool) (me : TSCForger) : bool :=
  negb (systemAwake me) || (negb timer && synchronised me) || synchronising me.

(** The fields a round never writes. *)
Definition same_flags (a b : TSCForger) : Prop :=
  caps a = caps b /\ threadCount a = threadCount b /\
  systemAwake a = systemAwake b /\ synchronised a = synchronised b /\
  synchronising a = synchronising b /\ timer a = timer b.

(** The calls a routine made: what it appended to the log of [m]. *)
Definition made_calls (m : Machine) (r : Result) (l : list Call) : Prop :=
  calls (state_of r) = calls m ++ l.

(** The scenario of the spec: four cores at 100, 150, 120 and 140. *)
Definition quad_forger : TSCForger :=
  mkForger (mkCaps true false) 4 true false true 0 0 None.

Definition quad_cores : list Core :=
  [mkCore 100 0; mkCore 150 0; mkCore 120 0; mkCore 140 0].

(** A two-core machine after boot, and an interleaving of its two cores
    under which a round completes. *)
Definition duo_forger : TSCForger :=
  mkForger (mkCaps false false) 2 true false false 0 0
    (Some (mkTimer true (Some PERIODIC_SYNC_INTERVAL))).

Definition duo : Machine := mkMachine duo_forger [mkCore 700 0; mkCore 900 0] [].

Definition duo_sched : list nat := [0; 1; 1; 0; 1; 0; 0; 1; 1; 0]%nat.

(** [duo] while asleep, and [duo] with its counters known aligned. *)
Definition duo_asleep : Machine := update_self (set_systemAwake false) duo.
Definition duo_aligned : Machine := update_self (set_synchronised true) duo.

(** An Intel machine (family 6, model 0x9E) on which
    [MSR_CORE_THREAD_COUNT] reads zero and leaf 1 reports the
    hyper-threading bit with a logical-processor count of zero. *)
Definition hw_zero_siblings : Hardware :=
  mkHardware VendorIntel 6 0x9E
    (fun leaf _ =>
       if leaf =? 1 then Some (mkRegs 0x906E9 0x800 0 CPUID_FEATURE_HTT) else None)
    0 true.

(** A machine that answers no query at all. *)
Definition hw_silent : Hardware :=
  mkHardware VendorUnknown 0 0 (fun _ _ => None) 0 false.

(** Two threads enter [syncAll] on [duo]: the timer thread (periodic)
    and a wall-clock read (not periodic). *)
Definition duo_callers : Kernel :=
  invoke duo [(true, duo_sched); (false, duo_sched)].

(** The timer thread runs up to and including the release of the gate
    (line 104); the reader then passes the guards, claims the gate and
    reaches the rendezvous call; the timer thread then performs line 105. *)
Definition late_store_order : list nat :=
  [0; 0; 0; 0; 0; 0; 0; 0; 1; 1; 1; 1; 1; 1; 0]%nat.

(** Two periodic callers whose calls overlap: the second performs its
    exchange after the first has released the gate. *)
Definition duo_periodic_callers : Kernel :=
  invoke duo [(true, duo_sched); (true, duo_sched)].

Definition back_to_back_order : list nat :=
  [1; 1; 0; 0; 0; 0; 0; 0; 0; 0; 0; 1; 1; 1; 1; 1; 1; 1]%nat.


(** ** Vocabulary of the further properties *)

(** Past line 71: the core has run [lockFreq]. *)
Definition has_locked (pc : SyncPC) : bool :=
  match pc with AtLockFreq => false | _ => true end.

(** An AMD family 17h object and a core whose [MSR_HWCR] has bits 4 and
    24 set. *)
Definition zen_forger : TSCForger :=
  mkForger (mkCaps true false) 2 true false true 0 0 None.

Definition zen_core : Core := mkCore 5000 0x1000010.

(** What a rendezvous entered from [me0] on [cores0] has done to the
    registers of each core: [MSR_HWCR] is as [lockFreq] leaves it once
    the core is past line 71, and the counter is untouched until the
    core returns. *)
Definition registers_inv (me0 : TSCForger) (cores0 : list Core) (r : Rendezvous) : Prop :=
  caps (shared r) = caps me0 /\
  forall i pc c c0,
    engines r !! i = Some (pc, c) -> cores0 !! i = Some c0 ->
    msr_hwcr c = (if has_locked pc then msr_hwcr (lockFreq me0 c0) else msr_hwcr c0) /\
    (is_returned pc = false -> msr_tsc c = msr_tsc c0).

(** A call the kernel makes into the extension once the hooks are in
    place: the timer fires, or one of the three routed routines is
    called. *)
Inductive Trigger :=
| TimerFires
| Urgency (urgency rtPeriod rtDeadline : Z)
| TracePoint (that point : Z)
| ClockRead (secs microsecs : Z).

Definition trigger (sched : list nat) (t : Trigger) (m : Machine) : Result :=
  match t with
  | TimerFires => timerAction sched m
  | Urgency urgency rtPeriod rtDeadline => wrapXcpmUrgency urgency rtPeriod rtDeadline m
  | TracePoint that point => wrapTracePoint sched that point m
  | ClockRead secs microsecs => wrapClockGetCalendarMicrotime sched secs microsecs m
  end.

(** Triggers served one after the other, each with the interleaving its
    round would see. *)
Fixpoint triggers (ts : list (list nat * Trigger)) (m : Machine) : Result :=
  match ts with
  | [] => Returns m
  | (sched, t) :: ts' => trigger sched t m >>> triggers ts'
  end.

Definition is_wake (t : Trigger) : bool :=
  match t with
  | TracePoint _ point => point =? kIOPMTracePointWakePlatformActions
  | _ => false
  end.

(** The originals a trigger reaches while the system is asleep. *)
Definition forwarded_asleep (t : Trigger) : list Call :=
  match t with
  | TimerFires | Urgency _ _ _ => []
  | TracePoint that point => [OrgTracePoint that point]
  | ClockRead secs microsecs => [OrgClockGetCalendarMicrotime secs microsecs]
  end.

(** Between two triggers: no round is in flight, and alignment is not
    claimed while the system is marked asleep. *)
Definition quiescent (me : TSCForger) : Prop :=
  synchronising me = false /\
  (synchronised me = true -> systemAwake me = true).

(** [TSCForger::processPatcher] (lines 142-154).  The wrappers it asks
    the patcher to route, by kernel symbol. *)
Inductive Wrapper :=
| WrapXcpmUrgency
| WrapTracePoint
| WrapClockGetCalendarMicrotime.

Definition requests : list (string * Wrapper) :=
  [("_xcpm_urgency"%string, WrapXcpmUrgency);
   ("__ZN14IOPMrootDomain10tracePointEh"%string, WrapTracePoint);
   ("_clock_get_calendar_microtime"%string, WrapClockGetCalendarMicrotime)].

(** How [processPatcher] ends: the routes are in place, or routing
    failed and a line was logged, or its [syncAll] never returned. *)
Inductive Patched :=
| HooksRouted (m : Machine)
| RoutingFailed (m : Machine)
| NeverPatched (m : Machine).

(** [routeMultiple] is the patcher's answer to the requests. *)
Definition processPatcher (sched : list nat)
    (routeMultiple : list (string * Wrapper) -> bool) (m : Machine) : Patched :=
  match syncAll sched false m with
  | Hangs m1 => NeverPatched m1
  | Returns m1 =>
      if routeMultiple requests then HooksRouted m1 else RoutingFailed m1
  end.

Definition patched_state (p : Patched) : Machine :=
  match p with HooksRouted m | RoutingFailed m | NeverPatched m => m end.

Definition patch_returns (p : Patched) : bool :=
  match p with NeverPatched _ => false | _ => true end.

(** The thread count the vendor branch of [init] leaves, before the
    fallback. *)
Definition vendor_count (hw : Hardware) : Z :=
  threadCount
    match cpuVendor hw with
    | VendorAMD => detect_amd hw instance
    | VendorIntel => detect_intel hw instance
    | VendorUnknown => instance
    end.

(** The machine at the end of [init]: the singleton as [init] leaves it,
    the cores as they are, no call made yet. *)
Definition booted (hw : Hardware) (cores : list Core) : Machine :=
  mkMachine (init hw instance) cores [].

(** Callers that have only loaded flags so far, or returned early. *)
Definition idle_pc (pc : SyncAllPC) : bool :=
  match pc with
  | AtLoadAwake | AtLoadSynchronised | ReturnedEarly => true
  | _ => false
  end.

(** A call that has nothing to do on [m]: the system is asleep, or the
    call is not periodic and alignment is valid. *)
Definition redundant (m : Machine) (periodic : bool) : Prop :=
  systemAwake (self m) = false \/
  (synchronised (self m) = true /\ periodic = false).

(** Where a redundant caller can stand. *)
Definition redundant_caller (m : Machine) (c : Caller) : Prop :=
  match at_pc c with
  | AtLoadAwake => redundant m (arg_timer c)
  | AtLoadSynchronised => synchronised (self m) = true /\ arg_timer c = false
  | ReturnedEarly => True
  | _ => False
  end.

(** ** Vocabulary of overlapping calls *)








(** ** A round in flight when the system goes to sleep *)

(** The timer thread has entered [syncAll(true)] on the aligned machine
    and loaded [systemAwake] (line 89). *)
Definition timer_inflight : Kernel :=
  interleave [0%nat] (invoke duo_aligned [(true, duo_sched)]).

(** The sleep trace point is served at that moment (lines 120-123 and
    the original). *)
Definition asleep_inflight : Kernel :=
  mkKernel
    (state_of (wrapTracePoint [] 7 kIOPMTracePointSleepCPUs (machine timer_inflight)))
    (callers timer_inflight).

(** The timer thread then runs the rest of its call (lines 90-105). *)
Definition round_while_asleep : Kernel :=
  interleave [0; 0; 0; 0; 0; 0; 0; 0]%nat asleep_inflight.

(** * Properties *)

(** ** Counting engines *)

Lemma tally_le p l : (tally p l <= length l)%nat.
Proof.
  induction l as [|[pc c] l IH]; simpl; [lia|].
  destruct (p pc); lia.
Qed.

Lemma tally_insert p l i pc c pc' c' :
  l !! i = Some (pc, c) ->
  (tally p (<[i := (pc', c')]> l) + (if p pc then 1 else 0)
   = tally p l + (if p pc' then 1 else 0))%nat.
Proof.
  revert i. induction l as [|[q d] l IH]; intros [|i] H; simpl in *; try done.
  - injection H as -> ->. lia.
  - specialize (IH i H). lia.
Qed.

Lemma tally_full p l i pc c :
  tally p l = length l -> l !! i = Some (pc, c) -> p pc = true.
Proof.
  revert i. induction l as [|[q d] l IH]; intros [|i] Hfull H; simpl in *; try done.
  - injection H as -> ->. pose proof (tally_le p l).
    destruct (p pc); [done | lia].
  - pose proof (tally_le p l).
    apply (IH i); [|done]. destruct (p q); lia.
Qed.

Lemma tally_all p l :
  (forall i pc c, l !! i = Some (pc, c) -> p pc = true) -> tally p l = length l.
Proof.
  induction l as [|[q d] l IH]; intros H; simpl; [done|].
  rewrite (H 0%nat q d eq_refl). rewrite IH; [done|].
  intros i pc c Hi. exact (H (S i) pc c Hi).
Qed.

Lemma tally_none p l :
  (forall i pc c, l !! i = Some (pc, c) -> p pc = false) -> tally p l = 0%nat.
Proof.
  induction l as [|[q d] l IH]; intros H; simpl; [done|].
  rewrite (H 0%nat q d eq_refl). rewrite IH; [done|].
  intros i pc c Hi. exact (H (S i) pc c Hi).
Qed.

Lemma all_returned_spec r :
  all_returned r = true <->
  forall i pc c, engines r !! i = Some (pc, c) -> pc = SyncReturned.
Proof.
  unfold all_returned. rewrite forallb_forall. split.
  - intros H i pc c Hi.
    assert (Hin : In (pc, c) (engines r)).
    { apply list_elem_of_In, list_elem_of_lookup. eauto. }
    specialize (H _ Hin). simpl in H. by destruct pc.
  - intros H [pc c] Hin.
    apply list_elem_of_In, list_elem_of_lookup in Hin as [i Hi].
    by rewrite (H i pc c Hi).
Qed.

Lemma run_schedule_app s1 s2 r :
  run_schedule (s1 ++ s2) r = run_schedule s2 (run_schedule s1 r).
Proof. unfold run_schedule. apply foldl_app. Qed.

(** ** What one step of [sync] does *)

Lemma lockFreq_tsc me c : msr_tsc (lockFreq me c) = msr_tsc c.
Proof. unfold lockFreq. by destruct (amd17h (caps me)). Qed.

Section SyncStep.
Variables (me me' : TSCForger) (pc pc' : SyncPC) (c c' : Core).
Hypothesis Hstep : sync_step me pc c = (me', pc', c').

Ltac by_cases :=
  revert Hstep; destruct pc; simpl;
  try (destruct (Z.eqb_spec (threadsEngaged me) (threadCount me)));
  intros [= <- <- <-]; simpl; rewrite ?lockFreq_tsc;
  auto; try done; try lia.

Lemma step_threadCount : threadCount me' = threadCount me.
Proof. by_cases. Qed.

Lemma step_engaged :
  threadsEngaged me' =
  if has_arrived pc' && negb (has_arrived pc)
  then wrap32 (threadsEngaged me + 1) else threadsEngaged me.
Proof. by_cases. Qed.

Lemma step_target :
  targetTSC me' =
  if has_proposed pc' && negb (has_proposed pc)
  then fetch_max (targetTSC me) (msr_tsc c) else targetTSC me.
Proof. by_cases. Qed.

Lemma step_arrived : has_arrived pc = true -> has_arrived pc' = true.
Proof. by_cases. Qed.

Lemma step_proposed : has_proposed pc = true -> has_proposed pc' = true.
Proof. by_cases. Qed.

Lemma step_passed : has_passed pc = true -> has_passed pc' = true.
Proof. by_cases. Qed.

Lemma step_returned : is_returned pc = true -> pc' = SyncReturned /\ c' = c.
Proof. by_cases. Qed.

Lemma step_barrier :
  has_passed pc = false -> has_passed pc' = true ->
  pc = AtSpin /\ threadsEngaged me = threadCount me.
Proof. by_cases. Qed.

Lemma step_spin :
  is_spinning pc = true -> threadsEngaged me <> threadCount me ->
  is_spinning pc' = true.
Proof. by_cases. Qed.

Lemma step_tsc : is_returned pc' = false -> msr_tsc c' = msr_tsc c.
Proof. by_cases. Qed.

Lemma step_write :
  is_returned pc = false -> is_returned pc' = true ->
  has_passed pc = true /\ msr_tsc c' = targetTSC me /\ me' = me.
Proof. by_cases. Qed.
End SyncStep.

Lemma engine_step_lookup i r pc c :
  engines r !! i = Some (pc, c) ->
  exists me' pc' c',
    sync_step (shared r) pc c = (me', pc', c') /\
    engine_step i r = mkRendezvous me' (<[i := (pc', c')]> (engines r)).
Proof.
  intros E. unfold engine_step. rewrite E.
  destruct (sync_step (shared r) pc c) as [[me' pc'] c'] eqn:S.
  by exists me', pc', c'.
Qed.

Lemma engine_step_idle i r : engines r !! i = None -> engine_step i r = r.
Proof. intros E. unfold engine_step. by rewrite E. Qed.

Lemma step_arrive me pc c me' pc' c' :
  sync_step me pc c = (me', pc', c') ->
  has_arrived pc = false -> has_arrived pc' = true -> pc' = AtSpin.
Proof. destruct pc; simpl; try done; by intros [= <- <- <-]. Qed.

Lemma arrived_proposed pc : has_arrived pc = true -> has_proposed pc = true.
Proof. by destruct pc. Qed.

Lemma engine_search p (l : list (SyncPC * Core)) :
  (exists i pc c, l !! i = Some (pc, c) /\ p pc = true) \/
  (forall i pc c, l !! i = Some (pc, c) -> p pc = false).
Proof.
  induction l as [|[q d] l [(i & pc & c & H & P)|IH]].
  - right. intros i pc c H. by rewrite lookup_nil in H.
  - left. by exists (S i), pc, c.
  - destruct (p q) eqn:Q.
    + left. by exists 0%nat, q, d.
    + right. intros [|i] pc c H; simpl in H.
      * by injection H as <- <-.
      * by eapply IH.
Qed.

Lemma work_left_insert l i pc c pc' c' :
  l !! i = Some (pc, c) ->
  (work_left (<[i := (pc', c')]> l) + steps_left pc
   = work_left l + steps_left pc')%nat.
Proof.
  revert i. induction l as [|[q d] l IH]; intros [|i] H; simpl in *; try done.
  - injection H as -> ->. lia.
  - specialize (IH i H). lia.
Qed.

Lemma work_left_zero l i pc c :
  work_left l = 0%nat -> l !! i = Some (pc, c) -> pc = SyncReturned.
Proof.
  revert i. induction l as [|[q d] l IH]; intros [|i] Hz H; simpl in *; try done.
  - injection H as -> ->. destruct pc; simpl in Hz; try lia. done.
  - apply (IH i); [lia|done].
Qed.

Lemma sync_step_progress me pc c me' pc' c' :
  sync_step me pc c = (me', pc', c') ->
  is_returned pc = false ->
  (pc = AtSpin -> threadsEngaged me = threadCount me) ->
  steps_left pc = S (steps_left pc').
Proof.
  destruct pc; simpl; try done; try by intros [= <- <- <-].
  intros S _ Hopen. rewrite Hopen in S by done.
  rewrite Z.eqb_refl in S. by injection S as <- <- <-.
Qed.

(** ** The invariant of a round *)

Section Round.
Variable me0 : TSCForger.
Variable cores0 : list Core.
Hypothesis Hsize : Z.of_nat (length cores0) < 2 ^ 32.
Hypothesis Hcount : 0 <= threadCount me0.
Hypothesis Hengaged0 : threadsEngaged me0 = 0.

Local Abbreviation Inv := (round_inv me0 cores0).

Lemma enter_engine i pc c :
  engines (enter_rendezvous me0 cores0) !! i = Some (pc, c) ->
  pc = AtLockFreq /\ cores0 !! i = Some c.
Proof.
  unfold enter_rendezvous; simpl. rewrite list_lookup_fmap.
  destruct (cores0 !! i); simpl; [|done]. by intros [= <- <-].
Qed.

Lemma round_inv_enter : Inv (enter_rendezvous me0 cores0).
Proof.
  assert (T : tally has_arrived (engines (enter_rendezvous me0 cores0)) = 0%nat).
  { apply tally_none. intros i pc c H. by apply enter_engine in H as [-> _]. }
  constructor; rewrite ?T.
  - simpl. by rewrite length_fmap.
  - done.
  - simpl. by rewrite Hengaged0.
  - intros Htarget0. left. simpl. by rewrite Htarget0.
  - intros i pc c c0 H H0 _. apply enter_engine in H as [_ H]. congruence.
  - intros i pc c c0 H _ P. by apply enter_engine in H as [-> _].
  - intros i pc c H P. by apply enter_engine in H as [-> _].
  - simpl. lia.
  - intros _ _ _ i c H. by apply enter_engine in H as [? _].
Qed.

Lemma candidate_bound r i c0 :
  Inv r -> cores0 !! i = Some c0 ->
  tally has_arrived (engines r) = length (engines r) ->
  msr_tsc c0 <= targetTSC (shared r).
Proof.
  intros I H0 Hfull.
  destruct (lookup_lt_is_Some_2 (engines r) i) as [[pc c] E].
  { rewrite (inv_length _ _ _ I). by eapply lookup_lt_Some. }
  eapply (inv_proposed _ _ _ I); eauto.
  eapply arrived_proposed, tally_full; eauto.
Qed.

(** Once every core has arrived the shared cell holds the maximum of
    the counters the cores proposed. *)
Lemma all_arrived_maximum r k ck :
  Forall valid_tsc cores0 -> targetTSC me0 = 0 ->
  Inv r -> cores0 !! k = Some ck ->
  tally has_arrived (engines r) = length (engines r) ->
  is_maximum (targetTSC (shared r)) (msr_tsc <$> cores0).
Proof.
  intros Hvalid Htarget0 I Hk Hfull. split.
  - destruct (inv_target _ _ _ I Htarget0) as [Hz|Hin]; [|done].
    pose proof (candidate_bound r k ck I Hk Hfull) as Hle.
    pose proof (Forall_lookup_1 _ _ _ _ Hvalid Hk) as Hv.
    unfold valid_tsc in Hv.
    apply list_elem_of_fmap. exists ck. split; [lia|].
    by eapply list_elem_of_lookup_2.
  - intros x Hx. apply list_elem_of_fmap in Hx as (c0 & -> & Hin).
    apply list_elem_of_lookup in Hin as [i Hi].
    by eapply candidate_bound.
Qed.

Lemma round_inv_step i r : Inv r -> Inv (engine_step i r).
Proof.
  intros I.
  destruct (engines r !! i) as [[pc c]|] eqn:E;
    [|by rewrite engine_step_idle].
  destruct (engine_step_lookup _ _ _ _ E) as (me' & pc' & c' & S & ->).
  assert (Hi : (i < length (engines r))%nat) by (by eapply lookup_lt_Some).
  destruct (lookup_lt_is_Some_2 cores0 i) as [c0 E0].
  { by rewrite <- (inv_length _ _ _ I). }
  pose proof (tally_insert has_arrived _ _ _ _ pc' c' E) as HT.
  pose proof (tally_le has_arrived (<[i:=(pc', c')]> (engines r))) as HL.
  rewrite length_insert, (inv_length _ _ _ I) in HL.
  pose proof (step_arrived _ _ _ _ _ _ S) as Harr.
  pose proof (step_engaged _ _ _ _ _ _ S) as Heng.
  pose proof (step_target _ _ _ _ _ _ S) as Htgt.
  pose proof (inv_engaged _ _ _ I) as IE.
  pose proof (inv_count _ _ _ I) as IC.
  assert (Hmono : targetTSC (shared r) <= targetTSC me').
  { rewrite Htgt. unfold fetch_max.
    destruct (has_proposed pc' && negb (has_proposed pc)); lia. }
  assert (Htally : (tally has_arrived (engines r)
                    <= tally has_arrived (<[i:=(pc', c')]> (engines r)))%nat).
  { destruct (has_arrived pc); [rewrite Harr in HT by done|];
      destruct (has_arrived pc'); lia. }
  constructor; simpl.
  - by rewrite length_insert, (inv_length _ _ _ I).
  - by rewrite (step_threadCount _ _ _ _ _ _ S).
  - rewrite Heng, IE. unfold wrap32.
    destruct (has_arrived pc) eqn:A; [rewrite Harr in * by done|];
      destruct (has_arrived pc') eqn:A'; simpl; try lia.
    rewrite Z.mod_small; lia.
  - intros Htarget0. rewrite Htgt.
    destruct (has_proposed pc' && negb (has_proposed pc)) eqn:P;
      [|by apply (inv_target _ _ _ I)].
    unfold fetch_max.
    destruct (Z.max_spec (targetTSC (shared r)) (msr_tsc c)) as [[_ ->]|[_ ->]];
      [|by apply (inv_target _ _ _ I)].
    right. rewrite (inv_tsc _ _ _ I i pc c c0 E E0).
    + apply list_elem_of_fmap. exists c0. split; [done|].
      by eapply list_elem_of_lookup_2.
    + destruct pc; simpl in *; try done.
      by rewrite andb_false_r in P.
  - intros j pcj cj c0j Hj H0j R.
    destruct (decide (i = j)) as [<-|Hne].
    + rewrite list_lookup_insert_eq in Hj by done. injection Hj as <- <-.
      rewrite (step_tsc _ _ _ _ _ _ S R).
      replace c0j with c0 by congruence.
      apply (inv_tsc _ _ _ I i pc c c0 E E0).
      destruct (is_returned pc) eqn:Rp; [|done].
      destruct (step_returned _ _ _ _ _ _ S Rp) as [-> _]. done.
    + rewrite list_lookup_insert_ne in Hj by done.
      by apply (inv_tsc _ _ _ I j pcj cj c0j).
  - intros j pcj cj c0j Hj H0j P.
    destruct (decide (i = j)) as [<-|Hne].
    + rewrite list_lookup_insert_eq in Hj by done. injection Hj as <- <-.
      replace c0j with c0 by congruence.
      destruct (has_proposed pc) eqn:Pp.
      * pose proof (inv_proposed _ _ _ I i pc c c0 E E0 Pp). lia.
      * rewrite Htgt, P. simpl. unfold fetch_max.
        rewrite <- (inv_tsc _ _ _ I i pc c c0 E E0); [lia|].
        by destruct pc.
    + rewrite list_lookup_insert_ne in Hj by done.
      pose proof (inv_proposed _ _ _ I j pcj cj c0j Hj H0j P). lia.
  - intros j pcj cj Hj P.
    destruct (decide (i = j)) as [<-|Hne].
    + rewrite list_lookup_insert_eq in Hj by done. injection Hj as <- <-.
      destruct (has_passed pc) eqn:Pp.
      * pose proof (inv_passed _ _ _ I i pc c E Pp). lia.
      * destruct (step_barrier _ _ _ _ _ _ S Pp P) as [_ Hopen]. lia.
    + rewrite list_lookup_insert_ne in Hj by done.
      pose proof (inv_passed _ _ _ I j pcj cj Hj P). lia.
  - intros Hover.
    destruct (has_arrived pc) eqn:A.
    + rewrite Harr in HT by done.
      destruct (inv_overshoot _ _ _ I) as (k & ck & Hk); [lia|].
      destruct (decide (i = k)) as [<-|Hne].
      * exists i. assert (pc = AtSpin) as -> by congruence.
        assert (is_spinning pc' = true) as Hs.
        { apply (step_spin _ _ _ _ _ _ S); [done|lia]. }
        exists c'. rewrite list_lookup_insert_eq by done.
        by destruct pc'.
      * exists k, ck. by rewrite list_lookup_insert_ne.
    + destruct (has_arrived pc') eqn:A'.
      * exists i, c'. rewrite list_lookup_insert_eq by done.
        by rewrite (step_arrive _ _ _ _ _ _ S A A').
      * destruct (inv_overshoot _ _ _ I) as (k & ck & Hk); [lia|].
        destruct (decide (i = k)) as [<-|Hne].
        { assert (pc = AtSpin) as -> by congruence. done. }
        exists k, ck. by rewrite list_lookup_insert_ne.
  - intros Hvalid Htarget0 Hn j cj Hj.
    destruct (decide (i = j)) as [<-|Hne].
    + rewrite list_lookup_insert_eq in Hj by done. injection Hj as -> <-.
      destruct (is_returned pc) eqn:Rp.
      * destruct (step_returned _ _ _ _ _ _ S Rp) as [_ ->].
        apply (inv_written _ _ _ I Hvalid Htarget0 Hn i). by destruct pc.
      * destruct (step_write _ _ _ _ _ _ S Rp eq_refl) as (Pp & -> & _).
        apply (all_arrived_maximum r i c0); [done|done|done|done|].
        pose proof (inv_passed _ _ _ I i pc c E Pp).
        pose proof (tally_le has_arrived (engines r)).
        rewrite (inv_length _ _ _ I) in *. lia.
    + rewrite list_lookup_insert_ne in Hj by done.
      by apply (inv_written _ _ _ I Hvalid Htarget0 Hn j).
Qed.

Lemma round_inv_run sched r : Inv r -> Inv (run_schedule sched r).
Proof.
  revert r. induction sched as [|i sched IH]; intros r I; [done|].
  simpl. apply IH. by apply round_inv_step.
Qed.

Lemma round_inv_reachable sched :
  Inv (run_schedule sched (enter_rendezvous me0 cores0)).
Proof. apply round_inv_run, round_inv_enter. Qed.

(** With as many cores as the configured thread count, some core can
    always take a step towards its return. *)
Lemma round_progress r :
  Inv r -> Z.of_nat (length cores0) = threadCount me0 ->
  work_left (engines r) <> 0%nat ->
  exists i, S (work_left (engines (engine_step i r))) = work_left (engines r).
Proof.
  intros I Hn Hw.
  assert (Hgo : exists i pc c, engines r !! i = Some (pc, c) /\
            is_returned pc = false /\
            (pc = AtSpin -> threadsEngaged (shared r) = threadCount (shared r))).
  { destruct (engine_search (fun pc => negb (has_arrived pc)) (engines r))
      as [(i & pc & c & E & P)|Harr].
    - exists i, pc, c. by destruct pc.
    - assert (Hfull : tally has_arrived (engines r) = length (engines r)).
      { apply tally_all. intros i pc c E.
        specialize (Harr i pc c E). by destruct (has_arrived pc). }
      destruct (engine_search (fun pc => negb (is_returned pc)) (engines r))
        as [(i & pc & c & E & P)|Hret].
      + exists i, pc, c. split; [done|]. split; [by destruct (is_returned pc)|].
        intros _. rewrite (inv_engaged _ _ _ I), (inv_count _ _ _ I), Hfull.
        rewrite (inv_length _ _ _ I). lia.
      + exfalso. apply Hw. clear -Hret. induction (engines r) as [|[q d] l IH]; [done|].
        simpl. pose proof (Hret 0%nat q d eq_refl) as Hq.
        destruct q; simpl in Hq; try done. simpl. apply IH.
        intros i pc c H. exact (Hret (S i) pc c H). }
  destruct Hgo as (i & pc & c & E & R & Hopen).
  destruct (engine_step_lookup _ _ _ _ E) as (me' & pc' & c' & S & Heq).
  exists i. rewrite Heq. simpl.
  pose proof (work_left_insert _ _ _ _ pc' c' E).
  pose proof (sync_step_progress _ _ _ _ _ _ S R Hopen). lia.
Qed.

Lemma round_completes_from w : forall r,
  Inv r -> Z.of_nat (length cores0) = threadCount me0 ->
  work_left (engines r) = w ->
  exists sched, all_returned (run_schedule sched r) = true.
Proof.
  induction w as [|w IH]; intros r I Hn Hw.
  - exists []. apply all_returned_spec. intros i pc c E.
    by eapply work_left_zero.
  - destruct (round_progress r I Hn) as [i Hi]; [lia|].
    destruct (IH (engine_step i r)) as [sched Hs];
      [by apply round_inv_step | done | lia |].
    by exists (i :: sched).
Qed.

Lemma round_completes :
  Z.of_nat (length cores0) = threadCount me0 ->
  exists sched,
    all_returned (run_schedule sched (enter_rendezvous me0 cores0)) = true.
Proof.
  intros Hn. eapply round_completes_from; [apply round_inv_enter|done|done].
Qed.

(** With fewer cores than the thread count nobody leaves the barrier. *)
Lemma undercount_blocks sched i pc c :
  Z.of_nat (length cores0) < threadCount me0 ->
  engines (run_schedule sched (enter_rendezvous me0 cores0)) !! i = Some (pc, c) ->
  has_passed pc = false.
Proof.
  intros Hlt E. pose proof (round_inv_reachable sched) as I.
  destruct (has_passed pc) eqn:P; [|done].
  pose proof (inv_passed _ _ _ I i pc c E P).
  pose proof (tally_le has_arrived
    (engines (run_schedule sched (enter_rendezvous me0 cores0)))).
  rewrite (inv_length _ _ _ I) in *. lia.
Qed.

(** With more cores than the thread count some core is left spinning. *)
Lemma overcount_blocks sched :
  threadCount me0 < Z.of_nat (length cores0) ->
  all_returned (run_schedule sched (enter_rendezvous me0 cores0)) = false.
Proof.
  intros Hgt. pose proof (round_inv_reachable sched) as I.
  destruct (all_returned _) eqn:A; [|done]. exfalso.
  rewrite all_returned_spec in A.
  destruct (inv_overshoot _ _ _ I) as (k & ck & Hk).
  - rewrite (tally_all has_arrived).
    + rewrite (inv_length _ _ _ I). lia.
    + intros i pc c E. by rewrite (A i pc c E).
  - by specialize (A k _ _ Hk).
Qed.
End Round.

(** ** Folding fetch-max *)

Lemma foldl_fetch_max_spec l : forall a,
  a <= foldl fetch_max a l /\
  (forall x, x ∈ l -> x <= foldl fetch_max a l) /\
  (foldl fetch_max a l = a \/ foldl fetch_max a l ∈ l).
Proof.
  induction l as [|y l IH]; intros a; simpl.
  - split; [lia|]. split; [|by left]. intros x Hx. by apply elem_of_nil in Hx.
  - assert (Hm : a <= fetch_max a y /\ y <= fetch_max a y /\
                 (fetch_max a y = a \/ fetch_max a y = y))
      by (unfold fetch_max; lia).
    destruct (IH (fetch_max a y)) as (Hle & Hall & Hin).
    revert Hm Hle Hall Hin. generalize (fetch_max a y) as m. intros m Hm Hle Hall Hin.
    split; [lia|]. split.
    + intros x Hx. apply elem_of_cons in Hx as [->|Hx]; [lia|by apply Hall].
    + destruct Hin as [Heq|Hin].
      * destruct Hm as (_ & _ & [E|E]).
        -- left. congruence.
        -- right. rewrite Heq, E. apply elem_of_cons. by left.
      * right. apply elem_of_cons. by right.
Qed.

Lemma is_maximum_unique a b l : is_maximum a l -> is_maximum b l -> a = b.
Proof.
  intros [Ha Hamax] [Hb Hbmax].
  specialize (Hamax _ Hb). specialize (Hbmax _ Ha). lia.
Qed.

Lemma foldl_fetch_max_maximum l :
  l <> [] -> (forall x, x ∈ l -> 0 <= x) ->
  is_maximum (foldl fetch_max 0 l) l.
Proof.
  intros Hne Hpos. destruct (foldl_fetch_max_spec l 0) as (Hle & Hall & Hin).
  split; [|done]. destruct Hin as [Hz|Hin]; [|done].
  destruct l as [|x l]; [done|]. rewrite Hz.
  assert (Hx : x ∈ x :: l) by (apply elem_of_cons; by left).
  pose proof (Hall x Hx). pose proof (Hpos x Hx).
  by replace 0 with x by lia.
Qed.

Lemma is_maximum_perm a l l' : l ≡ₚ l' -> is_maximum a l -> is_maximum a l'.
Proof.
  intros P [Hin Hmax]. split.
  - by rewrite <- P.
  - intros x Hx. apply Hmax. by rewrite P.
Qed.

(** ** The round: agreed value and termination of the barrier *)

(** C1. In a round of N participants entered with the shared cell and the
    arrival counter at zero, the agreed value is the maximum of the
    counters proposed, whatever the order in which they are folded in;
    under every interleaving each core that has returned has written
    exactly that value to its own counter, the shared target holds it
    once all have returned, and the round can run to completion. *)
Theorem round_agrees_on_maximum (me : TSCForger) (cores : list Core) :
  Forall valid_tsc cores -> cores <> [] ->
  Z.of_nat (length cores) = threadCount me -> threadCount me < 2 ^ 32 ->
  threadsEngaged me = 0 -> targetTSC me = 0 ->
  let candidates := msr_tsc <$> cores in
  let agreed := foldl fetch_max 0 candidates in
  let run sched := run_schedule sched (enter_rendezvous me cores) in
  is_maximum agreed candidates /\
  (forall proposals,
     proposals ≡ₚ candidates -> foldl fetch_max 0 proposals = agreed) /\
  (forall sched i c,
     engines (run sched) !! i = Some (SyncReturned, c) -> msr_tsc c = agreed) /\
  (forall sched,
     all_returned (run sched) = true -> targetTSC (shared (run sched)) = agreed) /\
  (exists sched, all_returned (run sched) = true).
Proof.
  intros Hvalid Hne Hn Hlt Heng Htgt candidates agreed run.
  assert (Hsize : Z.of_nat (length cores) < 2 ^ 32) by lia.
  assert (Hcount : 0 <= threadCount me) by lia.
  assert (Hcne : candidates <> []) by (by destruct cores).
  assert (Hpos : forall x, x ∈ candidates -> 0 <= x).
  { intros x Hx. apply list_elem_of_fmap in Hx as (c & -> & Hc).
    rewrite Forall_forall in Hvalid. by destruct (Hvalid c Hc). }
  assert (Hmax : is_maximum agreed candidates)
    by (by apply foldl_fetch_max_maximum).
  split; [done|]. split; [|split; [|split]].
  - intros proposals P. apply (is_maximum_unique _ _ candidates); [|done].
    apply (is_maximum_perm _ proposals); [done|].
    apply foldl_fetch_max_maximum.
    + intros ->. apply Permutation_nil in P. done.
    + intros x Hx. apply Hpos. by rewrite <- P.
  - intros sched i c E.
    apply (is_maximum_unique _ _ candidates); [|done].
    pose proof (round_inv_reachable me cores Hsize Hcount Heng sched) as I.
    by apply (inv_written _ _ _ I Hvalid Htgt Hn i).
  - intros sched A. apply (is_maximum_unique _ _ candidates); [|done].
    pose proof (round_inv_reachable me cores Hsize Hcount Heng sched) as I.
    destruct cores as [|c0 cs] eqn:Ecs; [done|].
    apply (all_arrived_maximum me (c0 :: cs) (run sched) 0%nat c0); try done.
    apply tally_all. intros i pc c E.
    rewrite all_returned_spec in A. by rewrite (A i pc c E).
  - by apply round_completes.
Qed.

Lemma round_agrees_on_maximum_witness :
  is_maximum 150 [100; 150; 120; 140] /\
  (forall sched i c,
     engines (run_schedule sched (enter_rendezvous quad_forger quad_cores)) !! i
       = Some (SyncReturned, c) -> msr_tsc c = 150).
Proof.
  assert (V : Forall valid_tsc quad_cores).
  { unfold quad_cores, valid_tsc. repeat constructor; simpl; lia. }
  destruct (round_agrees_on_maximum quad_forger quad_cores V)
    as (M & _ & W & _); try done.
Defined.

(** C5. For a thread count N >= 1 the barrier lets every participant
    return under some interleaving exactly when the number of cores that
    run the round action is N, and then every partial interleaving can be
    continued until all have returned; with fewer than N cores no core
    ever gets past the barrier, under any interleaving. *)
Theorem barrier_completes_iff_exact_count (me : TSCForger) (cores : list Core) :
  1 <= threadCount me < 2 ^ 32 -> cores <> [] ->
  Z.of_nat (length cores) < 2 ^ 32 -> threadsEngaged me = 0 ->
  let run sched := run_schedule sched (enter_rendezvous me cores) in
  ((exists sched, all_returned (run sched) = true)
     <-> Z.of_nat (length cores) = threadCount me) /\
  (Z.of_nat (length cores) = threadCount me ->
     forall sched, exists more, all_returned (run (sched ++ more)) = true) /\
  (Z.of_nat (length cores) < threadCount me ->
     forall sched i pc c,
       engines (run sched) !! i = Some (pc, c) -> has_passed pc = false).
Proof.
  intros HN Hne Hsize Heng run. subst run. cbv beta.
  assert (Hcount : 0 <= threadCount me) by lia.
  split.
  - split.
    + intros [sched A].
      destruct (Z.lt_trichotomy (Z.of_nat (length cores)) (threadCount me))
        as [Hlt|[Heq|Hgt]]; [|done|].
      * exfalso. rewrite all_returned_spec in A.
        pose proof (round_inv_reachable me cores Hsize Hcount Heng sched) as I.
        destruct (lookup_lt_is_Some_2 (engines (run_schedule sched (enter_rendezvous me cores))) 0)
          as [[pc c] E].
        { rewrite (inv_length _ _ _ I). destruct cores; [done|simpl; lia]. }
        pose proof (undercount_blocks me cores Hsize Hcount Heng sched 0 pc c Hlt E) as P.
        by rewrite (A _ _ _ E) in P.
      * pose proof (overcount_blocks me cores Hsize Hcount Heng sched Hgt) as B.
        congruence.
    + intros Hn. by apply round_completes.
  - split.
    + intros Hn sched.
      assert (C : exists more,
                all_returned (run_schedule more
                  (run_schedule sched (enter_rendezvous me cores))) = true).
      { eapply (round_completes_from me cores); eauto.
        by apply round_inv_reachable. }
      destruct C as [more A]. exists more. by rewrite run_schedule_app.
    + intros Hlt sched i pc c E.
      by apply (undercount_blocks me cores Hsize Hcount Heng sched i pc c).
Qed.

Lemma barrier_completes_iff_exact_count_witness :
  Z.of_nat (length quad_cores) = threadCount quad_forger /\
  exists sched,
    all_returned (run_schedule sched (enter_rendezvous quad_forger quad_cores)) = true.
Proof.
  destruct (barrier_completes_iff_exact_count quad_forger quad_cores)
    as [[_ H] _]; try done.
  split; [reflexivity|]. by apply H.
Defined.

(** ** What a round leaves alone *)

Lemma same_flags_refl me : same_flags me me.
Proof. by repeat split. Qed.

Lemma same_flags_trans a b c : same_flags a b -> same_flags b c -> same_flags a c.
Proof.
  unfold same_flags. intros (?&?&?&?&?&?) (?&?&?&?&?&?).
  repeat split; congruence.
Qed.

Lemma sync_step_flags me pc c me' pc' c' :
  sync_step me pc c = (me', pc', c') -> same_flags me me'.
Proof.
  destruct pc; simpl;
    try (destruct (threadsEngaged me =? threadCount me));
    intros [= <- <- <-]; by repeat split.
Qed.

Lemma engine_step_flags i r : same_flags (shared r) (shared (engine_step i r)).
Proof.
  destruct (engines r !! i) as [[pc c]|] eqn:E.
  - destruct (engine_step_lookup _ _ _ _ E) as (me' & pc' & c' & S & ->).
    simpl. by eapply sync_step_flags.
  - rewrite engine_step_idle by done. apply same_flags_refl.
Qed.

Lemma run_schedule_flags sched : forall r,
  same_flags (shared r) (shared (run_schedule sched r)).
Proof.
  induction sched as [|i sched IH]; intros r; simpl.
  - apply same_flags_refl.
  - eapply same_flags_trans; [apply engine_step_flags | apply IH].
Qed.

Lemma engine_step_length i r :
  length (engines (engine_step i r)) = length (engines r).
Proof.
  destruct (engines r !! i) as [[pc c]|] eqn:E.
  - destruct (engine_step_lookup _ _ _ _ E) as (me' & pc' & c' & S & ->).
    simpl. by rewrite length_insert.
  - by rewrite engine_step_idle.
Qed.

Lemma run_schedule_length sched : forall r,
  length (engines (run_schedule sched r)) = length (engines r).
Proof.
  induction sched as [|i sched IH]; intros r; simpl; [done|].
  by rewrite IH, engine_step_length.
Qed.

Lemma rendezvous_frame sched m :
  let m' := state_of (mp_rendezvous_no_intrs sched m) in
  same_flags (self m) (self m') /\
  calls m' = calls m ++ [MpRendezvousNoIntrs] /\
  length (cpus m') = length (cpus m).
Proof.
  unfold mp_rendezvous_no_intrs.
  set (r := run_schedule sched _).
  assert (F : same_flags (self m) (shared r)).
  { exact (run_schedule_flags sched
             (enter_rendezvous (self m) (cpus m))). }
  assert (L : length (snd <$> engines r) = length (cpus m)).
  { rewrite length_fmap. unfold r. rewrite run_schedule_length. simpl.
    by rewrite length_fmap. }
  by destruct (all_returned r).
Qed.


(** ** The orchestrator *)

Lemma syncAll_early sched timer m :
  guard timer (self m) = true -> syncAll sched timer m = Returns m.
Proof.
  destruct m as [[cp tc aw sd sg te tt tm] cs cl].
  unfold guard, syncAll, exchange_synchronising, update_self; simpl.
  by destruct aw, timer, sd, sg.
Qed.

Lemma syncAll_round sched timer m :
  guard timer (self m) = false ->
  syncAll sched timer m =
  mp_rendezvous_no_intrs sched
    (update_self (set_targetTSC 0)
      (update_self (set_threadsEngaged 0)
        (update_self (set_synchronised false)
          (update_self (set_synchronising true) m)))) >>> fun m5 =>
  Returns (update_self (set_synchronised true)
            (update_self (set_synchronising false) m5)).
Proof.
  destruct m as [[cp tc aw sd sg te tt tm] cs cl].
  unfold guard, syncAll, exchange_synchronising; simpl.
  by destruct aw, timer, sd, sg.
Qed.

Lemma syncAll_round_calls sched timer m :
  guard timer (self m) = false ->
  made_calls m (syncAll sched timer m) [MpRendezvousNoIntrs].
Proof.
  intros G. rewrite syncAll_round by done. unfold made_calls.
  match goal with |- context [mp_rendezvous_no_intrs ?s ?x] =>
    pose proof (rendezvous_frame s x) as (_ & C & _);
    destruct (mp_rendezvous_no_intrs s x) end; simpl in *; by rewrite C.
Qed.

(** Run alone, the step-by-step routine is the routine. *)
Lemma syncAll_steps_alone sched timer m :
  syncAll_steps 9 sched timer AtLoadAwake m =
  match syncAll sched timer m with
  | Returns m' =>
      (if guard timer (self m) then ReturnedEarly else ReturnedAfterRound, m')
  | Hangs m' => (Stalled, m')
  end.
Proof.
  destruct m as [[cp tc aw sd sg te tt tm] cs cl].
  unfold guard, syncAll, exchange_synchronising; simpl.
  destruct aw, timer, sd, sg; simpl; try done;
    match goal with |- context [mp_rendezvous_no_intrs ?s ?x] =>
      by destruct (mp_rendezvous_no_intrs s x) end.
Qed.

(** C10. When one of the three guards of [syncAll] fires the call
    returns with the machine exactly as it found it: no field of the
    synchronisation state, no register and no call differs.  A sleeping
    system is detected by the first load alone, a redundant non-periodic
    call by the second, and only then is the exchange performed, which on
    a held gate stores the value the gate already had. *)
Theorem syncAll_early_return_frame (sched : list nat) (timer : bool) (m : Machine) :
  guard timer (self m) = true ->
  syncAll sched timer m = Returns m /\
  (systemAwake (self m) = false ->
     syncAll_steps 1 sched timer AtLoadAwake m = (ReturnedEarly, m)) /\
  (systemAwake (self m) = true -> negb timer && synchronised (self m) = true ->
     syncAll_steps 1 sched timer AtLoadAwake m = (AtLoadSynchronised, m) /\
     syncAll_steps 2 sched timer AtLoadAwake m = (ReturnedEarly, m)) /\
  (systemAwake (self m) = true -> negb timer && synchronised (self m) = false ->
     syncAll_steps 2 sched timer AtLoadAwake m = (AtExchange, m) /\
     exchange_synchronising true m = (true, m) /\
     syncAll_steps 3 sched timer AtLoadAwake m = (ReturnedEarly, m)).
Proof.
  intros G. split; [by apply syncAll_early|].
  destruct m as [[cp tc aw sd sg te tt tm] cs cl].
  unfold guard, exchange_synchronising, update_self in *; simpl in *.
  split; [|split].
  - intros ->. done.
  - intros -> H. simpl. by rewrite H.
  - intros -> H. rewrite H in G. simpl in G. subst sg. simpl. by rewrite H.
Qed.

Lemma syncAll_early_return_frame_witness :
  syncAll duo_sched true duo_asleep = Returns duo_asleep.
Proof.
  destruct (syncAll_early_return_frame duo_sched true duo_asleep) as [H _];
    [reflexivity | exact H].
Defined.

(** ** Hooks *)

(** C7. The urgency wrapper calls the original, with the arguments it
    was given, exactly when [synchronised] is true at the call; when it is
    false nothing is called and nothing changes. *)
Theorem wrapXcpmUrgency_gate (urgency rtPeriod rtDeadline : Z) (m : Machine) :
  (synchronised (self m) = true <->
     made_calls m (wrapXcpmUrgency urgency rtPeriod rtDeadline m)
       [OrgXcpmUrgency urgency rtPeriod rtDeadline]) /\
  (synchronised (self m) = false <->
     made_calls m (wrapXcpmUrgency urgency rtPeriod rtDeadline m) []) /\
  wrapXcpmUrgency urgency rtPeriod rtDeadline m =
    Returns (if synchronised (self m)
             then log_call (OrgXcpmUrgency urgency rtPeriod rtDeadline) m
             else m).
Proof.
  unfold wrapXcpmUrgency, made_calls.
  destruct (synchronised (self m)); simpl; rewrite ?app_nil_r.
  - split; [done|]. split; [|done]. split; [done|].
    intros C. apply (f_equal length) in C. rewrite length_app in C.
    simpl in C. lia.
  - split; [|done]. split; [done|].
    intros C. rewrite <- (app_nil_r (calls m)) in C at 1.
    by apply app_inv_head in C.
Qed.

(** What a call of [syncAll] that gets past its guards leaves behind. *)
Lemma syncAll_round_spec sched periodic m :
  guard periodic (self m) = false ->
  match syncAll sched periodic m with
  | Returns m' =>
      synchronised (self m') = true /\ synchronising (self m') = false /\
      systemAwake (self m') = systemAwake (self m) /\
      timer (self m') = timer (self m) /\
      caps (self m') = caps (self m) /\
      threadCount (self m') = threadCount (self m) /\
      calls m' = calls m ++ [MpRendezvousNoIntrs]
  | Hangs m' =>
      synchronised (self m') = false /\ synchronising (self m') = true /\
      calls m' = calls m ++ [MpRendezvousNoIntrs]
  end.
Proof.
  intros G. rewrite syncAll_round by done.
  match goal with |- context [mp_rendezvous_no_intrs ?s ?x] =>
    pose proof (rendezvous_frame s x) as ((Fc & Fn & Fa & Fd & Fg & Ft) & C & _);
    destruct (mp_rendezvous_no_intrs s x) as [m5|m5] end; simpl in *.
  - repeat split; try done; congruence.
  - repeat split; try done; congruence.
Qed.

(** With as many cores as the thread count, some interleaving lets the
    call return. *)
Lemma syncAll_can_return timer m :
  Z.of_nat (length (cpus m)) = threadCount (self m) ->
  threadCount (self m) < 2 ^ 32 ->
  exists sched, returns (syncAll sched timer m) = true.
Proof.
  intros Hn Hlt. destruct (guard timer (self m)) eqn:G.
  - exists []. by rewrite syncAll_early.
  - set (me0 := set_targetTSC 0 (set_threadsEngaged 0
                 (set_synchronised false (set_synchronising true (self m))))).
    destruct (round_completes me0 (cpus m)) as [sched A]; try done; [simpl; lia..|].
    exists sched. rewrite syncAll_round by done.
    unfold mp_rendezvous_no_intrs. simpl. fold me0. by rewrite A.
Qed.

Lemma timerAction_asleep sched m :
  systemAwake (self m) = false ->
  exists m', timerAction sched m = Returns m' /\
    calls m' = calls m /\ cpus m' = cpus m /\
    systemAwake (self m') = false /\
    synchronised (self m') = synchronised (self m) /\
    synchronising (self m') = synchronising (self m) /\
    threadsEngaged (self m') = threadsEngaged (self m) /\
    targetTSC (self m') = targetTSC (self m).
Proof.
  intros A. unfold timerAction. rewrite syncAll_early.
  - simpl. eexists. split; [done|]. by simpl.
  - unfold guard. by rewrite A.
Qed.

(** While the system is asleep no firing of the timer runs a round. *)
Lemma timer_fires_asleep n sched : forall m,
  systemAwake (self m) = false ->
  exists m', timer_fires n sched m = Returns m' /\
    calls m' = calls m /\ cpus m' = cpus m /\
    systemAwake (self m') = false /\
    synchronised (self m') = synchronised (self m).
Proof.
  induction n as [|n IH]; intros m A; simpl.
  - by exists m.
  - destruct (timerAction_asleep sched m A) as (m1 & -> & C & P & A1 & S1 & _).
    simpl. destruct (IH m1 A1) as (m2 & -> & C2 & P2 & A2 & S2).
    exists m2. repeat split; congruence.
Qed.

Lemma wrapTracePoint_sleep sched that m :
  wrapTracePoint sched that kIOPMTracePointSleepCPUs m =
  Returns (log_call (OrgTracePoint that kIOPMTracePointSleepCPUs)
    (update_self stopTimer
      (update_self (set_synchronised false)
        (update_self (set_systemAwake false) m)))).
Proof. reflexivity. Qed.

Lemma wrapTracePoint_wake sched that m :
  wrapTracePoint sched that kIOPMTracePointWakePlatformActions m =
  syncAll sched false (update_self (set_systemAwake true) m) >>> fun m2 =>
  Returns (log_call (OrgTracePoint that kIOPMTracePointWakePlatformActions)
            (update_self startTimer m2)).
Proof.
  unfold wrapTracePoint.
  change (kIOPMTracePointWakePlatformActions =? kIOPMTracePointSleepCPUs) with false.
  change (kIOPMTracePointWakePlatformActions =? kIOPMTracePointWakePlatformActions)
    with true.
  cbv iota. by destruct (syncAll sched false _).
Qed.

Lemma wrapTracePoint_other sched that point m :
  point <> kIOPMTracePointSleepCPUs ->
  point <> kIOPMTracePointWakePlatformActions ->
  wrapTracePoint sched that point m = Returns (log_call (OrgTracePoint that point) m).
Proof.
  intros H1 H2. unfold wrapTracePoint.
  destruct (Z.eqb_spec point kIOPMTracePointSleepCPUs); [done|].
  by destruct (Z.eqb_spec point kIOPMTracePointWakePlatformActions).
Qed.

(** The two power transitions served with no call of [syncAll] in
    flight.  On the sleep point the wrapper clears [systemAwake] and
    [synchronised], cancels and disables the timer and forwards the
    call; no firing of the timer that begins afterwards runs a round.
    On the wake point it sets [systemAwake], calls [syncAll], which runs
    a round before the wrapper returns unless [synchronised] is already
    true, restarts the timer and forwards the call.  With the right
    thread count the wrapper does return. *)
Lemma wrapTracePoint_in_order
    (sched : list nat) (that : Z) (m : Machine) :
  (exists m',
     wrapTracePoint sched that kIOPMTracePointSleepCPUs m = Returns m' /\
     self m' =
       set_timer (option_map (fun _ => mkTimer false None) (timer (self m)))
         (set_synchronised false (set_systemAwake false (self m))) /\
     systemAwake (self m') = false /\ synchronised (self m') = false /\
     timer (self m') = option_map (fun _ => mkTimer false None) (timer (self m)) /\
     synchronising (self m') = synchronising (self m) /\
     cpus m' = cpus m /\
     calls m' = calls m ++ [OrgTracePoint that kIOPMTracePointSleepCPUs] /\
     forall n sched', exists m'',
       timer_fires n sched' m' = Returns m'' /\
       calls m'' = calls m' /\ cpus m'' = cpus m' /\
       systemAwake (self m'') = false /\ synchronised (self m'') = false) /\
  (synchronising (self m) = false ->
   forall m',
     wrapTracePoint sched that kIOPMTracePointWakePlatformActions m = Returns m' ->
     systemAwake (self m') = true /\ synchronised (self m') = true /\
     synchronising (self m') = false /\
     timer (self m') =
       option_map (fun _ => mkTimer true (Some PERIODIC_SYNC_INTERVAL)) (timer (self m)) /\
     calls m' =
       calls m ++ (if synchronised (self m) then [] else [MpRendezvousNoIntrs])
               ++ [OrgTracePoint that kIOPMTracePointWakePlatformActions]) /\
  (Z.of_nat (length (cpus m)) = threadCount (self m) ->
   threadCount (self m) < 2 ^ 32 ->
   exists sched',
     returns (wrapTracePoint sched' that kIOPMTracePointWakePlatformActions m) = true).
Proof.
  split; [|split].
  - rewrite wrapTracePoint_sleep. eexists. split; [done|].
    assert (T :
      stopTimer (set_synchronised false (set_systemAwake false (self m))) =
      set_timer (option_map (fun _ => mkTimer false None) (timer (self m)))
        (set_synchronised false (set_systemAwake false (self m)))).
    { unfold stopTimer. simpl. destruct (self m) as [? ? ? ? ? ? ? []]; done. }
    simpl. rewrite T. simpl. repeat split; try done.
    intros n sched'.
    match goal with |- context [timer_fires n sched' ?x] =>
      destruct (timer_fires_asleep n sched' x) as (m2 & E & C & P & A & S) end.
    { simpl. by rewrite T. }
    exists m2. repeat split; try done.
    rewrite S. simpl. by rewrite T.
  - intros Hfree m'. rewrite wrapTracePoint_wake.
    set (m1 := update_self (set_systemAwake true) m).
    destruct (guard false (self m1)) eqn:G.
    + rewrite syncAll_early by done. simpl. intros [= <-]. simpl.
      assert (Hs : synchronised (self m) = true).
      { unfold guard in G. simpl in G. rewrite Hfree in G.
        by destruct (synchronised (self m)). }
      rewrite Hs. unfold startTimer; simpl.
      destruct (timer (self m)) eqn:Et; simpl; by rewrite ?Hs, ?Hfree, ?Et.
    + pose proof (syncAll_round_spec sched false m1 G) as R.
      destruct (syncAll sched false m1) as [m2|m2]; simpl; [|done].
      destruct R as (Rs & Rg & Ra & Rt & _ & _ & Rc).
      intros [= <-]. simpl.
      assert (Hs : synchronised (self m) = false).
      { unfold guard in G. simpl in G. by destruct (synchronised (self m)). }
      rewrite Hs, Rc. simpl in *. rewrite <- app_assoc. simpl.
      unfold startTimer; simpl. rewrite Rt.
      destruct (timer (self m)) eqn:Et; simpl; by rewrite ?Rs, ?Rg, ?Ra, ?Rt, ?Et.
  - intros Hn Hlt.
    destruct (syncAll_can_return false (update_self (set_systemAwake true) m))
      as [sched' R]; [done..|].
    exists sched'. rewrite wrapTracePoint_wake.
    by destruct (syncAll sched' false _).
Qed.



(** ** Capability detection *)

Lemma land_byte x : 0 <= Z.land x 0xFF < 256.
Proof.
  change 0xFF with (Z.ones 8). rewrite Z.land_ones by lia.
  apply Z.mod_pos_bound. lia.
Qed.

Lemma land_word x : 0 <= Z.land x 0xFFFF < 65536.
Proof.
  change 0xFFFF with (Z.ones 16). rewrite Z.land_ones by lia.
  apply Z.mod_pos_bound. lia.
Qed.

Lemma startTimer_threadCount me : threadCount (startTimer me) = threadCount me.
Proof. unfold startTimer. by destruct (timer me). Qed.

Lemma startTimer_caps me : caps (startTimer me) = caps me.
Proof. unfold startTimer. by destruct (timer me). Qed.

Lemma detect_fallback_caps hw me : caps (detect_fallback hw me) = caps me.
Proof.
  unfold detect_fallback.
  destruct (threadCount me =? 0); [|done]. by destruct (getCpuid hw 1 0).
Qed.

(** The thread count [detect_fallback] leaves is at least 1 unless leaf 1
    reports hyper-threading with a zero logical-processor count. *)
Lemma detect_fallback_positive hw me :
  0 <= threadCount me < 2 ^ 32 ->
  (forall r, getCpuid hw 1 0 = Some r ->
     Z.land (Z.lor (Z.shiftl (ecx r) 32) (edx r)) CPUID_FEATURE_HTT <> 0 ->
     Z.land (Z.shiftr (ebx r) 16) 0xFF <> 0) ->
  1 <= threadCount (detect_fallback hw me) < 2 ^ 32.
Proof.
  intros Hme Hsib. unfold detect_fallback.
  destruct (Z.eqb_spec (threadCount me) 0) as [_|Hnz]; [|lia].
  destruct (getCpuid hw 1 0) as [r|] eqn:E; simpl; [|lia].
  destruct (Z.eqb_spec (Z.land (Z.lor (Z.shiftl (ecx r) 32) (edx r)) CPUID_FEATURE_HTT) 0)
    as [_|Hhtt]; simpl; [lia|].
  pose proof (land_byte (Z.shiftr (ebx r) 16)).
  pose proof (Hsib r eq_refl Hhtt). lia.
Qed.

Lemma detect_vendor_range hw :
  let me1 := match cpuVendor hw with
             | VendorAMD => detect_amd hw instance
             | VendorIntel => detect_intel hw instance
             | VendorUnknown => instance
             end in
  0 <= threadCount me1 < 2 ^ 32.
Proof.
  destruct (cpuVendor hw); simpl.
  - lia.
  - unfold detect_amd.
    assert (H : 0 <= threadCount
      match getCpuid hw 0x80000008 0 with
      | Some r => set_threadCount (wrap32 (Z.land (ecx r) 0xFF + 1)) instance
      | None => instance
      end < 2 ^ 32).
    { destruct (getCpuid hw 0x80000008 0) as [r|]; simpl; [|lia].
      pose proof (land_byte (ecx r)). unfold wrap32.
      rewrite Z.mod_small; lia. }
    by destruct (getCpuid hw 1 0).
  - unfold detect_intel.
    destruct ((6 <? cpuFamily hw) || _); simpl; [|lia].
    pose proof (land_word (core_thread_count hw)). unfold wrap32.
    rewrite Z.mod_small; lia.
Qed.

Lemma init_threadCount_positive hw :
  (forall r, getCpuid hw 1 0 = Some r ->
     Z.land (Z.lor (Z.shiftl (ecx r) 32) (edx r)) CPUID_FEATURE_HTT <> 0 ->
     Z.land (Z.shiftr (ebx r) 16) 0xFF <> 0) ->
  1 <= threadCount (init hw instance) < 2 ^ 32.
Proof.
  intros Hsib. unfold init. rewrite startTimer_threadCount. simpl.
  apply detect_fallback_positive; [apply detect_vendor_range|done].
Qed.

(** Nothing detected: the flags stay false and the count defaults to 1. *)
Lemma init_defaults hw :
  (forall leaf sub, getCpuid hw leaf sub = None) ->
  core_thread_count hw = 0 ->
  caps (init hw instance) = mkCaps false false /\
  threadCount (init hw instance) = 1.
Proof.
  intros Hnone Hmsr. unfold init.
  rewrite startTimer_threadCount, startTimer_caps. simpl.
  rewrite detect_fallback_caps. unfold detect_fallback, detect_amd, detect_intel.
  rewrite !Hnone, Hmsr.
  destruct (cpuVendor hw); simpl; try done.
  by destruct ((6 <? cpuFamily hw) || _).
Qed.

(** C9 fails on the code.  Detection always completes ([init] is a total
    function) and the flags default to false, but the thread count it
    leaves can be 0: when the vendor path yields 0 and leaf 1 reports
    hyper-threading with a logical-processor field of zero, line 197
    stores that zero. *)
Theorem init_zero_thread_count :
  valid_hardware hw_zero_siblings /\
  (forall me, threadCount (init hw_zero_siblings me) = 0) /\
  caps (init hw_zero_siblings instance) = mkCaps false false /\
  threadCount (init hw_silent instance) = 1.
Proof.
  split; [|split; [intros me; reflexivity | by vm_compute]].
  split; [|by vm_compute].
  intros leaf sub r. simpl.
  destruct (leaf =? 1); [|done]. intros [= <-].
  unfold valid_regs. cbn [eax ebx ecx edx].
  change CPUID_FEATURE_HTT with 268435456. lia.
Qed.

(** ** Concurrent callers of [syncAll] *)





Lemma caller_step_lookup i k c :
  callers k !! i = Some c ->
  exists pc' m',
    syncAll_step (arg_sched c) (arg_timer c) (at_pc c) (machine k) = (pc', m') /\
    caller_step i k
    = mkKernel m' (<[i := mkCaller (arg_timer c) (arg_sched c) pc']> (callers k)).
Proof.
  intros E. unfold caller_step. rewrite E.
  destruct (syncAll_step _ _ _ _) as [pc' m'] eqn:S. by exists pc', m'.
Qed.







(** ** Alignment validity around a round *)

Lemma syncAll_steps_add a b sched periodic : forall pc m,
  syncAll_steps (a + b) sched periodic pc m =
  let '(pc', m') := syncAll_steps a sched periodic pc m in
  syncAll_steps b sched periodic pc' m'.
Proof.
  induction a as [|a IH]; intros pc m; simpl; [done|].
  destruct (syncAll_step sched periodic pc m) as [pc1 m1]. apply IH.
Qed.

(** Program order of one call that gets past the guards, taken alone:
    the gate is claimed, alignment is marked invalid, the two counters are
    zeroed, the executor is called, and only after it returns is the gate
    released and then alignment marked valid.  From the store of line 95
    up to and including the release of the gate [synchronised] is false. *)
Lemma syncAll_program_order sched periodic m :
  guard periodic (self m) = false ->
  let m1 := update_self (set_synchronising true) m in
  let m2 := update_self (set_synchronised false) m1 in
  let m3 := update_self (set_threadsEngaged 0) m2 in
  let m4 := update_self (set_targetTSC 0) m3 in
  syncAll_steps 3 sched periodic AtLoadAwake m = (AtClearSynchronised, m1) /\
  syncAll_steps 4 sched periodic AtLoadAwake m = (AtResetEngaged, m2) /\
  syncAll_steps 5 sched periodic AtLoadAwake m = (AtResetTarget, m3) /\
  syncAll_steps 6 sched periodic AtLoadAwake m = (AtRendezvous, m4) /\
  (forall m5, mp_rendezvous_no_intrs sched m4 = Returns m5 ->
     syncAll_steps 7 sched periodic AtLoadAwake m = (AtReleaseGate, m5) /\
     syncAll_steps 8 sched periodic AtLoadAwake m
       = (AtSetSynchronised, update_self (set_synchronising false) m5) /\
     syncAll_steps 9 sched periodic AtLoadAwake m
       = (ReturnedAfterRound,
          update_self (set_synchronised true)
            (update_self (set_synchronising false) m5))) /\
  (forall n, (4 <= n <= 8)%nat ->
     synchronised (self (snd (syncAll_steps n sched periodic AtLoadAwake m))) = false).
Proof.
  intros G m1 m2 m3 m4.
  assert (S3 : syncAll_steps 3 sched periodic AtLoadAwake m = (AtClearSynchronised, m1)).
  { subst m1. destruct m as [[cp tc aw sd sg te tt tm] cs cl].
    unfold guard in G. simpl in *. by destruct aw, periodic, sd, sg. }
  assert (Sn : forall n, syncAll_steps (3 + n) sched periodic AtLoadAwake m
                 = syncAll_steps n sched periodic AtClearSynchronised m1).
  { intros n. by rewrite syncAll_steps_add, S3. }
  pose proof (rendezvous_frame sched m4) as ((_ & _ & _ & Fd & _ & _) & _).
  pose proof (Sn 4%nat) as S7. change (3 + 4)%nat with 7%nat in S7.
  pose proof (Sn 5%nat) as S8. change (3 + 5)%nat with 8%nat in S8.
  pose proof (Sn 6%nat) as S9. change (3 + 6)%nat with 9%nat in S9.
  split; [done|].
  split; [exact (Sn 1%nat)|]. split; [exact (Sn 2%nat)|]. split; [exact (Sn 3%nat)|].
  split.
  - intros m5 R. rewrite S7, S8, S9. simpl.
    fold m2 m3 m4. by rewrite R.
  - intros n Hn.
    assert (Hc : n = 4%nat \/ n = 5%nat \/ n = 6%nat \/ n = 7%nat \/ n = 8%nat) by lia.
    destruct Hc as [-> | [-> | [-> | [-> | ->]]]].
    + by rewrite (Sn 1%nat : syncAll_steps 4 _ _ _ _ = _).
    + by rewrite (Sn 2%nat : syncAll_steps 5 _ _ _ _ = _).
    + by rewrite (Sn 3%nat : syncAll_steps 6 _ _ _ _ = _).
    + rewrite S7. simpl. fold m2 m3 m4.
      destruct (mp_rendezvous_no_intrs sched m4); simpl in *; by rewrite <- Fd.
    + rewrite S8. simpl. fold m2 m3 m4.
      destruct (mp_rendezvous_no_intrs sched m4); simpl in *; by rewrite <- Fd.
Qed.

(** C4 fails on the code once calls overlap.  The timer thread finishes
    its round and releases the gate (line 104) before it marks alignment
    valid (line 105).  In between, a wall-clock read passes the guards,
    claims the gate, marks alignment invalid and zeroes the counters.
    The timer thread's pending store then sets [synchronised] while the
    reader's round is still to run: the reader holds the gate, stands at
    the rendezvous call, and the urgency wrapper forwards calls. *)
Theorem late_store_marks_round_valid :
  let before := interleave (take 14 late_store_order) duo_callers in
  let k := interleave late_store_order duo_callers in
  at_pc <$> callers before = [AtSetSynchronised; AtRendezvous] /\
  synchronised (self (machine before)) = false /\
  at_pc <$> callers k = [ReturnedAfterRound; AtRendezvous] /\
  (fun c => round_in_progress (at_pc c)) <$> callers k = [false; true] /\
  gate_holders (callers k) = 1%nat /\
  synchronising (self (machine k)) = true /\
  synchronised (self (machine k)) = true /\
  synchronised (self (machine (caller_step 1 k))) = true /\
  at_pc <$> callers (caller_step 1 k) = [ReturnedAfterRound; AtReleaseGate] /\
  wrapXcpmUrgency 1 2 3 (machine k)
    = Returns (log_call (OrgXcpmUrgency 1 2 3) (machine k)).
Proof. by vm_compute. Qed.

(** ** A completed call aligns the counters *)

(** When [syncAll] gets past its guards on a machine with as many cores
    as the thread count and returns, every core's counter and the shared
    target hold the maximum of the counters read at the start. *)
Lemma syncAll_aligns sched periodic m m' :
  guard periodic (self m) = false ->
  Forall valid_tsc (cpus m) ->
  Z.of_nat (length (cpus m)) = threadCount (self m) ->
  threadCount (self m) < 2 ^ 32 ->
  syncAll sched periodic m = Returns m' ->
  forall i c, cpus m' !! i = Some c ->
    is_maximum (msr_tsc c) (msr_tsc <$> cpus m) /\
    msr_tsc c = targetTSC (self m').
Proof.
  intros G Hvalid Hn Hlt. rewrite syncAll_round by done.
  unfold mp_rendezvous_no_intrs. simpl.
  set (me0 := set_targetTSC 0 (set_threadsEngaged 0
                (set_synchronised false (set_synchronising true (self m))))).
  set (r := run_schedule sched (enter_rendezvous me0 (cpus m))).
  destruct (all_returned r) eqn:A; simpl; [|done].
  intros [= <-] i c Hc. simpl in *.
  rewrite list_lookup_fmap in Hc.
  destruct (engines r !! i) as [[pc c1]|] eqn:E; simpl in Hc; [|done].
  injection Hc as ->.
  assert (Hpc : pc = SyncReturned).
  { rewrite all_returned_spec in A. by eapply A. }
  subst pc.
  assert (I : round_inv me0 (cpus m) r).
  { apply round_inv_reachable; simpl; lia. }
  assert (Hmax : is_maximum (msr_tsc c) (msr_tsc <$> cpus m)).
  { by apply (inv_written _ _ _ I Hvalid eq_refl Hn i). }
  split; [done|].
  apply (is_maximum_unique _ _ (msr_tsc <$> cpus m)); [done|].
  destruct (lookup_lt_is_Some_2 (cpus m) i) as [c0 E0].
  { rewrite <- (inv_length _ _ _ I). by eapply lookup_lt_Some. }
  apply (all_arrived_maximum me0 (cpus m) r i c0); try done.
  apply tally_all. intros j pcj cj Ej.
  rewrite all_returned_spec in A. by rewrite (A j pcj cj Ej).
Qed.


(** * Further properties of the code *)

(** ** [lockFreq] and the registers a round writes *)

Lemma lockFreq_caps a b c : caps a = caps b -> lockFreq a c = lockFreq b c.
Proof. unfold lockFreq. by intros ->. Qed.

Lemma lockFreq_hwcr me c :
  msr_hwcr (lockFreq me c) =
  if amd17h (caps me) then Z.lor (msr_hwcr c) (2 ^ 21) else msr_hwcr c.
Proof. unfold lockFreq. by destruct (amd17h (caps me)). Qed.

Lemma lor_below a b n :
  0 <= n -> 0 <= a < 2 ^ n -> 0 <= b < 2 ^ n -> 0 <= Z.lor a b < 2 ^ n.
Proof.
  intros Hn Ha Hb. split; [apply Z.lor_nonneg; lia|].
  destruct (Z.eq_dec (Z.lor a b) 0) as [->|Hz]; [lia|].
  assert (Hpos : 0 < Z.lor a b).
  { assert (0 <= Z.lor a b) by (apply Z.lor_nonneg; lia). lia. }
  apply Z.log2_lt_pow2; [done|]. rewrite Z.log2_lor by lia.
  destruct (Z.eq_dec a 0) as [->|Ha0].
  - rewrite Z.lor_0_l in Hpos. simpl. rewrite Z.max_r by apply Z.log2_nonneg.
    apply Z.log2_lt_pow2; lia.
  - destruct (Z.eq_dec b 0) as [->|Hb0].
    + simpl. rewrite Z.max_l by apply Z.log2_nonneg. apply Z.log2_lt_pow2; lia.
    + apply Z.max_lub_lt; apply Z.log2_lt_pow2; lia.
Qed.

(** X1. [lockFreq] never touches the cycle counter and does nothing
    without the family-17h capability; with it, it sets bit 21 of
    [MSR_HWCR] and leaves every other bit as it was, keeps the register
    within 64 bits, and doing it again changes nothing. *)
Theorem lockFreq_sets_only_lock_bit (me : TSCForger) (c : Core) :
  msr_tsc (lockFreq me c) = msr_tsc c /\
  lockFreq me (lockFreq me c) = lockFreq me c /\
  (amd17h (caps me) = false -> lockFreq me c = c) /\
  (amd17h (caps me) = true ->
     Z.testbit (msr_hwcr (lockFreq me c)) 21 = true /\
     forall n, n <> 21 ->
       Z.testbit (msr_hwcr (lockFreq me c)) n = Z.testbit (msr_hwcr c) n) /\
  (0 <= msr_hwcr c < 2 ^ 64 -> 0 <= msr_hwcr (lockFreq me c) < 2 ^ 64).
Proof.
  split; [apply lockFreq_tsc|]. split; [|split; [|split]].
  - unfold lockFreq. destruct (amd17h (caps me)); [|done].
    unfold wrmsr64, rdmsr64. simpl. f_equal.
    by rewrite <- Z.lor_assoc, Z.lor_diag.
  - unfold lockFreq. by intros ->.
  - intros A. rewrite lockFreq_hwcr, A. split.
    + rewrite Z.lor_spec, Z.pow2_bits_true by lia. apply orb_true_r.
    + intros n Hn. rewrite Z.lor_spec, Z.pow2_bits_false by lia.
      apply orb_false_r.
  - intros H. rewrite lockFreq_hwcr. destruct (amd17h (caps me)); [|done].
    apply lor_below; lia.
Qed.

Lemma sync_step_registers me pc c me' pc' c' :
  sync_step me pc c = (me', pc', c') ->
  has_locked pc' = true /\
  msr_hwcr c' = (if has_locked pc then msr_hwcr c else msr_hwcr (lockFreq me c)).
Proof.
  destruct pc; simpl;
    try (destruct (threadsEngaged me =? threadCount me));
    by intros [= <- <- <-].
Qed.

Lemma registers_inv_step me0 cores0 i r :
  registers_inv me0 cores0 r -> registers_inv me0 cores0 (engine_step i r).
Proof.
  intros [Hcaps Hregs].
  destruct (engines r !! i) as [[pc c]|] eqn:E;
    [|by rewrite engine_step_idle].
  destruct (engine_step_lookup _ _ _ _ E) as (me' & pc' & c' & S & ->).
  assert (Hi : (i < length (engines r))%nat) by (by eapply lookup_lt_Some).
  destruct (sync_step_flags _ _ _ _ _ _ S) as (Fc & _).
  destruct (sync_step_registers _ _ _ _ _ _ S) as [Hl Hh].
  split; simpl; [congruence|].
  intros j pcj cj c0j Hj H0j.
  destruct (decide (i = j)) as [<-|Hne].
  - rewrite list_lookup_insert_eq in Hj by done. injection Hj as <- <-.
    destruct (Hregs i pc c c0j E H0j) as [Hh0 Ht0]. split.
    + rewrite Hl, Hh. destruct (has_locked pc); [done|].
      rewrite !lockFreq_hwcr, Hcaps, Hh0. done.
    + intros R. rewrite (step_tsc _ _ _ _ _ _ S R). apply Ht0.
      destruct (is_returned pc) eqn:Rp; [|done].
      destruct (step_returned _ _ _ _ _ _ S Rp) as [-> _]. done.
  - rewrite list_lookup_insert_ne in Hj by done. by apply (Hregs j pcj cj c0j).
Qed.

Lemma registers_inv_run me0 cores0 sched : forall r,
  registers_inv me0 cores0 r -> registers_inv me0 cores0 (run_schedule sched r).
Proof.
  induction sched as [|i sched IH]; intros r I; [done|].
  simpl. apply IH. by apply registers_inv_step.
Qed.

Lemma registers_inv_enter me0 cores0 :
  registers_inv me0 cores0 (enter_rendezvous me0 cores0).
Proof.
  split; [done|]. intros i pc c c0 E E0.
  unfold enter_rendezvous in E; simpl in E. rewrite list_lookup_fmap, E0 in E.
  by injection E as <- <-.
Qed.

(** X2. Under every interleaving a round writes, of each core, only
    this: [MSR_HWCR] holds what [lockFreq] makes of its initial value
    once the core is past line 71 and the initial value before, and the
    cycle counter holds its initial value until the core returns.  The
    number of cores and the fields of the object other than the two
    round counters stay as they were. *)
Theorem round_register_effects
    (me : TSCForger) (cores : list Core) (sched : list nat)
    (i : nat) (pc : SyncPC) (c c0 : Core) :
  engines (run_schedule sched (enter_rendezvous me cores)) !! i = Some (pc, c) ->
  cores !! i = Some c0 ->
  msr_hwcr c = (if has_locked pc then msr_hwcr (lockFreq me c0) else msr_hwcr c0) /\
  (is_returned pc = false -> msr_tsc c = msr_tsc c0) /\
  same_flags me (shared (run_schedule sched (enter_rendezvous me cores))) /\
  length (engines (run_schedule sched (enter_rendezvous me cores))) = length cores.
Proof.
  intros E E0.
  destruct (registers_inv_run me cores sched _ (registers_inv_enter me cores))
    as [_ Hregs].
  destruct (Hregs i pc c c0 E E0) as [Hh Ht].
  split; [done|]. split; [done|]. split.
  - exact (run_schedule_flags sched (enter_rendezvous me cores)).
  - rewrite run_schedule_length. simpl. by rewrite length_fmap.
Qed.

Lemma round_register_effects_witness :
  msr_hwcr (mkCore 5000 0x1200010) = msr_hwcr (lockFreq zen_forger zen_core) /\
  same_flags zen_forger
    (shared (run_schedule [0; 0; 1]%nat
               (enter_rendezvous zen_forger [zen_core; zen_core]))).
Proof.
  destruct (round_register_effects zen_forger [zen_core; zen_core] [0; 0; 1]%nat
              0%nat AtFetchAdd (mkCore 5000 0x1200010) zen_core)
    as (H & _ & F & _); [reflexivity | reflexivity |].
  split; [exact H | exact F].
Defined.

(** X3. The barrier orders the writes after the proposals.  With no
    more cores than the thread count, whenever some core is past the spin
    loop of line 78 every core has already proposed its counter, the
    arrival counter equals the thread count, and the shared target is
    already the maximum of the proposed counters. *)
Theorem barrier_orders_writes
    (me : TSCForger) (cores : list Core) (sched : list nat)
    (i : nat) (pc : SyncPC) (c : Core) :
  Forall valid_tsc cores ->
  Z.of_nat (length cores) <= threadCount me -> threadCount me < 2 ^ 32 ->
  threadsEngaged me = 0 -> targetTSC me = 0 ->
  engines (run_schedule sched (enter_rendezvous me cores)) !! i = Some (pc, c) ->
  has_passed pc = true ->
  (forall j pcj cj,
     engines (run_schedule sched (enter_rendezvous me cores)) !! j = Some (pcj, cj) ->
     has_proposed pcj = true) /\
  threadsEngaged (shared (run_schedule sched (enter_rendezvous me cores)))
    = threadCount me /\
  Z.of_nat (length cores) = threadCount me /\
  is_maximum (targetTSC (shared (run_schedule sched (enter_rendezvous me cores))))
    (msr_tsc <$> cores).
Proof.
  intros Hvalid Hle Hlt Heng Htgt E P.
  set (r := run_schedule sched (enter_rendezvous me cores)) in *.
  assert (I : round_inv me cores r).
  { apply round_inv_reachable; [lia | lia | done]. }
  pose proof (inv_passed _ _ _ I i pc c E P) as HN.
  pose proof (tally_le has_arrived (engines r)) as HL.
  pose proof (inv_length _ _ _ I) as Hlen.
  assert (Hfull : tally has_arrived (engines r) = length (engines r)) by lia.
  split; [|split; [|split]].
  - intros j pcj cj Ej. apply arrived_proposed.
    by apply (tally_full has_arrived (engines r) j pcj cj).
  - rewrite (inv_engaged _ _ _ I). lia.
  - lia.
  - destruct (lookup_lt_is_Some_2 cores i) as [c0 E0].
    { rewrite <- Hlen. by eapply lookup_lt_Some. }
    by apply (all_arrived_maximum me cores r i c0).
Qed.

Lemma barrier_orders_writes_witness :
  Z.of_nat (length quad_cores) = threadCount quad_forger /\
  is_maximum
    (targetTSC (shared (run_schedule [0; 0; 0; 1; 1; 1; 2; 2; 2; 3; 3; 3; 3]%nat
                          (enter_rendezvous quad_forger quad_cores))))
    (msr_tsc <$> quad_cores).
Proof.
  assert (V : Forall valid_tsc quad_cores).
  { unfold quad_cores, valid_tsc. repeat constructor; simpl; lia. }
  destruct (barrier_orders_writes quad_forger quad_cores
              [0; 0; 0; 1; 1; 1; 2; 2; 2; 3; 3; 3; 3]%nat 3%nat AtWrite
              (mkCore 140 0x200000) V)
    as (_ & _ & N & M); try done.
Defined.

(** ** What a call of [syncAll] leaves behind *)

Lemma core_eta c : c = mkCore (msr_tsc c) (msr_hwcr c).
Proof. by destruct c. Qed.

Lemma forger_eq (a b : TSCForger) :
  caps a = caps b -> threadCount a = threadCount b ->
  systemAwake a = systemAwake b -> synchronised a = synchronised b ->
  synchronising a = synchronising b -> threadsEngaged a = threadsEngaged b ->
  targetTSC a = targetTSC b -> timer a = timer b -> a = b.
Proof. destruct a, b; simpl. by intros -> -> -> -> -> -> -> ->. Qed.

(** X4. A call of [syncAll] that gets past its guards on a machine with
    as many cores as the thread count, and returns, leaves every core
    with the same counter, the maximum of the counters the cores had; no
    core's counter is moved backwards; [MSR_HWCR] of every core is what
    [lockFreq] makes of it; the shared target holds the agreed value and
    the arrival counter the thread count.  The machine it leaves does not
    depend on how the cores interleaved. *)
Theorem syncAll_round_aligns_counters
    (sched : list nat) (periodic : bool) (m m' : Machine) :
  guard periodic (self m) = false ->
  Forall valid_tsc (cpus m) -> cpus m <> [] ->
  Z.of_nat (length (cpus m)) = threadCount (self m) ->
  threadCount (self m) < 2 ^ 32 ->
  syncAll sched periodic m = Returns m' ->
  length (cpus m') = length (cpus m) /\
  is_maximum (targetTSC (self m')) (msr_tsc <$> cpus m) /\
  threadsEngaged (self m') = threadCount (self m) /\
  (forall i c0, cpus m !! i = Some c0 ->
     cpus m' !! i
       = Some (mkCore (targetTSC (self m')) (msr_hwcr (lockFreq (self m) c0))) /\
     msr_tsc c0 <= targetTSC (self m')) /\
  (forall sched2 m2, syncAll sched2 periodic m = Returns m2 -> m2 = m').
Proof.
  intros G Hvalid Hne Hn Hlt.
  assert (P : forall sched m',
    syncAll sched periodic m = Returns m' ->
    length (cpus m') = length (cpus m) /\
    is_maximum (targetTSC (self m')) (msr_tsc <$> cpus m) /\
    threadsEngaged (self m') = threadCount (self m) /\
    (forall i c0, cpus m !! i = Some c0 ->
       cpus m' !! i
         = Some (mkCore (targetTSC (self m')) (msr_hwcr (lockFreq (self m) c0))) /\
       msr_tsc c0 <= targetTSC (self m'))).
  { clear sched m'. intros sched m'. rewrite syncAll_round by done.
    unfold mp_rendezvous_no_intrs. simpl.
    set (me0 := set_targetTSC 0 (set_threadsEngaged 0
                  (set_synchronised false (set_synchronising true (self m))))).
    set (r := run_schedule sched (enter_rendezvous me0 (cpus m))).
    destruct (all_returned r) eqn:A; simpl; [|done].
    intros [= <-]. simpl.
    assert (I : round_inv me0 (cpus m) r).
    { apply round_inv_reachable; simpl; lia. }
    assert (Hlen : length (engines r) = length (cpus m))
      by apply (inv_length _ _ _ I).
    assert (Hfull : tally has_arrived (engines r) = length (engines r)).
    { apply tally_all. intros j pcj cj Ej.
      rewrite all_returned_spec in A. by rewrite (A j pcj cj Ej). }
    assert (Hmax : is_maximum (targetTSC (shared r)) (msr_tsc <$> cpus m)).
    { destruct (cpus m) as [|c0 cs] eqn:Ecs; [done|].
      by apply (all_arrived_maximum me0 (c0 :: cs) r 0%nat c0). }
    split; [by rewrite length_fmap|]. split; [done|]. split.
    - rewrite (inv_engaged _ _ _ I), Hfull, Hlen. done.
    - intros i c0 E0.
      destruct (lookup_lt_is_Some_2 (engines r) i) as [[pc c] E].
      { rewrite Hlen. by eapply lookup_lt_Some. }
      assert (Hpc : pc = SyncReturned).
      { rewrite all_returned_spec in A. by eapply A. }
      subst pc. split.
      + rewrite list_lookup_fmap, E. simpl. f_equal.
        rewrite (core_eta c). f_equal.
        * apply (is_maximum_unique _ _ (msr_tsc <$> cpus m)); [|done].
          by apply (inv_written _ _ _ I Hvalid eq_refl Hn i).
        * destruct (registers_inv_run me0 (cpus m) sched _
                      (registers_inv_enter me0 (cpus m))) as [_ Hregs].
          destruct (Hregs i SyncReturned c c0 E E0) as [-> _]. simpl.
          by rewrite (lockFreq_caps me0 (self m)).
      + destruct Hmax as [_ Hmax]. apply Hmax.
        apply list_elem_of_fmap. exists c0. split; [done|].
        by eapply list_elem_of_lookup_2. }
  intros S. destruct (P sched m' S) as (L1 & M1 & E1 & R1).
  split; [done|]. split; [done|]. split; [done|]. split; [done|].
  intros sched2 m2 S2. destruct (P sched2 m2 S2) as (L2 & M2 & E2 & R2).
  pose proof (syncAll_round_spec sched periodic m G) as F1. rewrite S in F1.
  pose proof (syncAll_round_spec sched2 periodic m G) as F2. rewrite S2 in F2.
  destruct F1 as (? & ? & ? & ? & ? & ? & ?), F2 as (? & ? & ? & ? & ? & ? & ?).
  assert (T : targetTSC (self m2) = targetTSC (self m'))
    by (by eapply is_maximum_unique).
  assert (Hself : self m2 = self m') by (apply forger_eq; congruence).
  assert (Hcpus : cpus m2 = cpus m').
  { apply list_eq. intros i.
    destruct (cpus m !! i) as [c0|] eqn:E0.
    - destruct (R1 i c0 E0) as [-> _], (R2 i c0 E0) as [-> _]. by rewrite T.
    - apply lookup_ge_None in E0.
      rewrite (proj2 (lookup_ge_None (cpus m2) i)) by lia.
      by rewrite (proj2 (lookup_ge_None (cpus m') i)) by lia. }
  destruct m2, m'; simpl in *. congruence.
Qed.

Lemma syncAll_round_aligns_counters_witness :
  cpus (state_of (syncAll duo_sched true duo)) = [mkCore 900 0; mkCore 900 0] /\
  is_maximum (targetTSC (self (state_of (syncAll duo_sched true duo)))) [700; 900].
Proof.
  assert (V : Forall valid_tsc (cpus duo)).
  { unfold valid_tsc. repeat constructor; simpl; lia. }
  assert (S : syncAll duo_sched true duo
              = Returns (state_of (syncAll duo_sched true duo)))
    by (vm_compute; reflexivity).
  assert (N : cpus duo <> []) by discriminate.
  assert (L : threadCount (self duo) < 2 ^ 32) by reflexivity.
  destruct (syncAll_round_aligns_counters duo_sched true duo
              (state_of (syncAll duo_sched true duo)) eq_refl V N eq_refl L S)
    as (_ & M & _).
  split; [vm_compute; reflexivity | exact M].
Defined.

(** With a number of cores other than the thread count, no interleaving
    returns every core. *)
Lemma miscount_blocks me cores sched :
  cores <> [] -> 0 <= threadCount me -> Z.of_nat (length cores) < 2 ^ 32 ->
  threadsEngaged me = 0 -> Z.of_nat (length cores) <> threadCount me ->
  all_returned (run_schedule sched (enter_rendezvous me cores)) = false.
Proof.
  intros Hne Hcount Hsize Heng Hmis.
  destruct (Z.lt_trichotomy (Z.of_nat (length cores)) (threadCount me))
    as [Hlt|[Heq|Hgt]]; [|done|].
  - destruct (all_returned _) eqn:A; [exfalso|done].
    pose proof (round_inv_reachable me cores Hsize Hcount Heng sched) as I.
    destruct (lookup_lt_is_Some_2
                (engines (run_schedule sched (enter_rendezvous me cores))) 0)
      as [[pc c] E].
    { rewrite (inv_length _ _ _ I). destruct cores; [done|simpl; lia]. }
    pose proof (undercount_blocks me cores Hsize Hcount Heng sched 0 pc c Hlt E) as P.
    rewrite all_returned_spec in A. by rewrite (A _ _ _ E) in P.
  - by apply overcount_blocks.
Qed.

Lemma syncAll_miscount sched periodic m :
  guard periodic (self m) = false -> cpus m <> [] ->
  0 <= threadCount (self m) -> Z.of_nat (length (cpus m)) < 2 ^ 32 ->
  Z.of_nat (length (cpus m)) <> threadCount (self m) ->
  returns (syncAll sched periodic m) = false.
Proof.
  intros G Hne Hcount Hsize Hmis. rewrite syncAll_round by done.
  unfold mp_rendezvous_no_intrs. simpl.
  rewrite miscount_blocks; done.
Qed.

(** X5. A miscounted thread count stalls the machine.  When a call of
    [syncAll] gets past its guards and the number of cores differs from
    [threadCount] (in particular when [threadCount] is 0), the call never
    returns, under any interleaving of the cores; the gate stays held and
    alignment stays marked invalid. *)
Theorem syncAll_miscount_never_returns
    (sched : list nat) (periodic : bool) (m : Machine) :
  guard periodic (self m) = false -> cpus m <> [] ->
  0 <= threadCount (self m) -> Z.of_nat (length (cpus m)) < 2 ^ 32 ->
  Z.of_nat (length (cpus m)) <> threadCount (self m) ->
  exists m',
    syncAll sched periodic m = Hangs m' /\
    synchronising (self m') = true /\ synchronised (self m') = false /\
    calls m' = calls m ++ [MpRendezvousNoIntrs].
Proof.
  intros G Hne Hcount Hsize Hmis.
  pose proof (syncAll_round_spec sched periodic m G) as R.
  pose proof (syncAll_miscount sched periodic m G Hne Hcount Hsize Hmis) as H.
  destruct (syncAll sched periodic m) as [m'|m']; [done|].
  exists m'. tauto.
Qed.

Lemma syncAll_miscount_never_returns_witness :
  returns (syncAll duo_sched false
             (update_self (set_threadCount 0) duo)) = false.
Proof.
  destruct (syncAll_miscount_never_returns duo_sched false
              (update_self (set_threadCount 0) duo))
    as (m' & -> & _); try done.
Defined.

(** X6. A call of [syncAll] that returns leaves the gate as it found it
    and never writes the capabilities, the thread count, [systemAwake],
    the timer or the number of cores; alignment that was valid is still
    valid, and alignment is valid whenever the call got past its guards. *)
Theorem syncAll_returns_frame
    (sched : list nat) (periodic : bool) (m m' : Machine) :
  syncAll sched periodic m = Returns m' ->
  synchronising (self m') = synchronising (self m) /\
  caps (self m') = caps (self m) /\
  threadCount (self m') = threadCount (self m) /\
  systemAwake (self m') = systemAwake (self m) /\
  timer (self m') = timer (self m) /\
  length (cpus m') = length (cpus m) /\
  (synchronised (self m) = true -> synchronised (self m') = true) /\
  (guard periodic (self m) = false -> synchronised (self m') = true).
Proof.
  intros S. destruct (guard periodic (self m)) eqn:G.
  - rewrite syncAll_early in S by done. injection S as <-.
    repeat split; try done.
  - pose proof (syncAll_round_spec sched periodic m G) as R.
    assert (L : length (cpus m') = length (cpus m)).
    { revert S. rewrite syncAll_round by done.
      match goal with |- context [mp_rendezvous_no_intrs ?s ?x] =>
        pose proof (rendezvous_frame s x) as (_ & _ & L);
        destruct (mp_rendezvous_no_intrs s x) as [m5|m5] end; simpl; [|done].
      intros [= <-]. simpl in *. done. }
    rewrite S in R. destruct R as (Rs & Rg & Ra & Rt & Rc & Rn & _).
    assert (Hg : synchronising (self m) = false).
    { unfold guard in G. by destruct (synchronising (self m));
        rewrite ?orb_true_r in G. }
    repeat split; try done; congruence.
Qed.

Lemma syncAll_returns_frame_witness :
  synchronising (self (state_of (syncAll duo_sched true duo))) = false /\
  synchronised (self (state_of (syncAll duo_sched true duo))) = true.
Proof.
  assert (S : syncAll duo_sched true duo
              = Returns (state_of (syncAll duo_sched true duo)))
    by (vm_compute; reflexivity).
  destruct (syncAll_returns_frame duo_sched true duo
              (state_of (syncAll duo_sched true duo)) S)
    as (G & _ & _ & _ & _ & _ & _ & V).
  split; [rewrite G; reflexivity | exact (V eq_refl)].
Defined.

(** ** Hooks and timer, one trigger after the other *)

Lemma syncAll_returns_cases sched periodic m m' :
  syncAll sched periodic m = Returns m' ->
  (guard periodic (self m) = true /\ m' = m) \/
  (guard periodic (self m) = false /\
   synchronised (self m') = true /\ synchronising (self m') = false /\
   systemAwake (self m') = systemAwake (self m) /\
   timer (self m') = timer (self m) /\
   caps (self m') = caps (self m) /\
   threadCount (self m') = threadCount (self m) /\
   calls m' = calls m ++ [MpRendezvousNoIntrs]).
Proof.
  intros S. destruct (guard periodic (self m)) eqn:G.
  - left. rewrite syncAll_early in S by done. by injection S as <-.
  - right. pose proof (syncAll_round_spec sched periodic m G) as R.
    by rewrite S in R.
Qed.

Lemma guard_awake periodic me : guard periodic me = false -> systemAwake me = true.
Proof. unfold guard. by destruct (systemAwake me). Qed.

Lemma guard_free periodic me : guard periodic me = false -> synchronising me = false.
Proof.
  unfold guard. destruct (synchronising me); [|done]. by rewrite orb_true_r.
Qed.

(** X7. A wall-clock read on an awake system with no round in flight is
    served with alignment valid: when the wrapper returns [synchronised]
    is true and the original has been called last, with the arguments
    given.  If alignment was already valid nothing else happens; if not,
    exactly one round ran before the original was called. *)
Theorem clock_read_sees_aligned_counters
    (sched : list nat) (secs microsecs : Z) (m m' : Machine) :
  systemAwake (self m) = true -> synchronising (self m) = false ->
  wrapClockGetCalendarMicrotime sched secs microsecs m = Returns m' ->
  synchronised (self m') = true /\
  (synchronised (self m) = true ->
     m' = log_call (OrgClockGetCalendarMicrotime secs microsecs) m) /\
  (synchronised (self m) = false ->
     calls m' = calls m ++ [MpRendezvousNoIntrs;
                            OrgClockGetCalendarMicrotime secs microsecs]).
Proof.
  intros Ha Hg. unfold wrapClockGetCalendarMicrotime.
  destruct (syncAll sched false m) as [m1|m1] eqn:S; simpl; [|done].
  intros [= <-]. simpl.
  destruct (syncAll_returns_cases _ _ _ _ S)
    as [[G ->]|(G & Rs & _ & _ & _ & _ & _ & Rc)].
  - unfold guard in G. rewrite Ha, Hg in G. simpl in G.
    rewrite orb_false_r in G. rewrite G. by repeat split.
  - unfold guard in G. rewrite Ha, Hg in G. simpl in G.
    rewrite orb_false_r in G. rewrite G. split; [done|]. split; [done|].
    intros _. by rewrite Rc, <- app_assoc.
Qed.

Lemma clock_read_sees_aligned_counters_witness :
  synchronised
    (self (state_of (wrapClockGetCalendarMicrotime duo_sched 11 12 duo))) = true.
Proof.
  assert (S : wrapClockGetCalendarMicrotime duo_sched 11 12 duo
              = Returns (state_of (wrapClockGetCalendarMicrotime duo_sched 11 12 duo)))
    by (vm_compute; reflexivity).
  destruct (clock_read_sees_aligned_counters duo_sched 11 12 duo
              (state_of (wrapClockGetCalendarMicrotime duo_sched 11 12 duo))
              eq_refl eq_refl S)
    as [H _].
  exact H.
Defined.

(** X8. A sleep event followed by a wake event always runs exactly one
    round, whatever the alignment was before: when the wake wrapper
    returns the system is awake, alignment is valid, the gate is free,
    the timer (if there is one) is enabled and armed at 5000 ms, and the
    calls made are the sleep original, the rendezvous, the wake original,
    in that order.  With as many cores as the thread count the wake
    wrapper does return. *)
Theorem sleep_then_wake_resynchronises
    (sched sched' : list nat) (that that' : Z) (m : Machine) :
  synchronising (self m) = false ->
  (forall m',
     wrapTracePoint sched that kIOPMTracePointSleepCPUs m >>>
       wrapTracePoint sched' that' kIOPMTracePointWakePlatformActions
     = Returns m' ->
     systemAwake (self m') = true /\ synchronised (self m') = true /\
     synchronising (self m') = false /\
     timer (self m')
       = option_map (fun _ => mkTimer true (Some PERIODIC_SYNC_INTERVAL))
           (timer (self m)) /\
     calls m' = calls m ++ [OrgTracePoint that kIOPMTracePointSleepCPUs;
                            MpRendezvousNoIntrs;
                            OrgTracePoint that' kIOPMTracePointWakePlatformActions]) /\
  (Z.of_nat (length (cpus m)) = threadCount (self m) ->
   threadCount (self m) < 2 ^ 32 ->
   exists sched'',
     returns (wrapTracePoint sched that kIOPMTracePointSleepCPUs m >>>
                wrapTracePoint sched'' that' kIOPMTracePointWakePlatformActions)
     = true).
Proof.
  intros Hg. rewrite wrapTracePoint_sleep.
  set (ms := log_call (OrgTracePoint that kIOPMTracePointSleepCPUs)
               (update_self stopTimer
                  (update_self (set_synchronised false)
                     (update_self (set_systemAwake false) m)))).
  cbn [and_then].
  assert (Hs : self ms =
    set_timer (option_map (fun _ => mkTimer false None) (timer (self m)))
      (set_synchronised false (set_systemAwake false (self m)))).
  { unfold ms, stopTimer. simpl. destruct (self m) as [? ? ? ? ? ? ? []]; done. }
  assert (Cs : calls ms = calls m ++ [OrgTracePoint that kIOPMTracePointSleepCPUs])
    by done.
  assert (Ps : cpus ms = cpus m) by done.
  clearbody ms.
  assert (Gs : guard false (self (update_self (set_systemAwake true) ms)) = false).
  { unfold guard. simpl. rewrite Hs. simpl. by rewrite Hg. }
  assert (Ts : timer (self ms)
               = option_map (fun _ => mkTimer false None) (timer (self m))).
  { by rewrite Hs. }
  split.
  - intros m'. rewrite wrapTracePoint_wake.
    destruct (syncAll sched' false _) as [m2|m2] eqn:S; simpl; [|done].
    intros [= <-]. simpl.
    destruct (syncAll_returns_cases _ _ _ _ S)
      as [[G _]|(_ & Rs & Rg & Ra & Rt & _ & _ & Rc)]; [congruence|].
    simpl in *. unfold startTimer. rewrite Rt, Ts, Rc, Cs.
    rewrite <- app_assoc. rewrite <- app_assoc. simpl.
    destruct (timer (self m)) eqn:Et; simpl;
      by rewrite ?Rs, ?Rg, ?Ra, ?Rt, ?Ts, ?Et.
  - intros Hn Hlt.
    destruct (syncAll_can_return false (update_self (set_systemAwake true) ms))
      as [sched'' R].
    { simpl. by rewrite Ps, Hs. }
    { simpl. by rewrite Hs. }
    exists sched''. rewrite wrapTracePoint_wake.
    by destruct (syncAll sched'' false _).
Qed.

Lemma sleep_then_wake_resynchronises_witness :
  calls (state_of
    (wrapTracePoint duo_sched 7 kIOPMTracePointSleepCPUs duo_aligned >>>
       wrapTracePoint duo_sched 7 kIOPMTracePointWakePlatformActions))
  = [OrgTracePoint 7 kIOPMTracePointSleepCPUs; MpRendezvousNoIntrs;
     OrgTracePoint 7 kIOPMTracePointWakePlatformActions].
Proof.
  assert (S :
    wrapTracePoint duo_sched 7 kIOPMTracePointSleepCPUs duo_aligned >>>
      wrapTracePoint duo_sched 7 kIOPMTracePointWakePlatformActions
    = Returns (state_of
        (wrapTracePoint duo_sched 7 kIOPMTracePointSleepCPUs duo_aligned >>>
           wrapTracePoint duo_sched 7 kIOPMTracePointWakePlatformActions)))
    by (vm_compute; reflexivity).
  destruct (sleep_then_wake_resynchronises duo_sched duo_sched 7 7 duo_aligned
              eq_refl)
    as [H _].
  destruct (H _ S) as (_ & _ & _ & _ & C). rewrite C. reflexivity.
Defined.

(** X9. [timerAction] re-arms the timer at 5000 ms whenever its
    [syncAll] returns, whatever that call did; it keeps the timer's
    enabled state and creates no timer.  On an awake system with no round
    in flight it runs exactly one round, also when alignment was already
    valid, and leaves alignment valid. *)
Theorem timerAction_rearms_and_resyncs
    (sched : list nat) (m m' : Machine) :
  timerAction sched m = Returns m' ->
  timer (self m')
    = option_map (fun t => mkTimer (enabled t) (Some PERIODIC_SYNC_INTERVAL))
        (timer (self m)) /\
  synchronising (self m') = synchronising (self m) /\
  (systemAwake (self m) = true -> synchronising (self m) = false ->
     synchronised (self m') = true /\
     calls m' = calls m ++ [MpRendezvousNoIntrs]) /\
  (systemAwake (self m) = false \/ synchronising (self m) = true ->
     calls m' = calls m /\ cpus m' = cpus m /\
     synchronised (self m') = synchronised (self m)).
Proof.
  unfold timerAction.
  destruct (syncAll sched true m) as [m1|m1] eqn:S; simpl; [|done].
  intros [= <-]. simpl.
  destruct (syncAll_returns_cases _ _ _ _ S)
    as [[G ->]|(G & Rs & Rg & Ra & Rt & _ & _ & Rc)].
  - split; [by destruct (timer (self m))|]. split; [done|]. split.
    + intros Ha Hg. unfold guard in G. by rewrite Ha, Hg in G.
    + done.
  - pose proof (guard_awake _ _ G) as Ha. pose proof (guard_free _ _ G) as Hg.
    split; [rewrite Rt; by destruct (timer (self m))|].
    split; [congruence|]. split; [done|].
    intros [H|H]; congruence.
Qed.

Lemma timerAction_rearms_and_resyncs_witness :
  timer (self (state_of (timerAction duo_sched duo_aligned)))
    = Some (mkTimer true (Some PERIODIC_SYNC_INTERVAL)) /\
  calls (state_of (timerAction duo_sched duo_aligned)) = [MpRendezvousNoIntrs].
Proof.
  assert (S : timerAction duo_sched duo_aligned
              = Returns (state_of (timerAction duo_sched duo_aligned)))
    by (vm_compute; reflexivity).
  destruct (timerAction_rearms_and_resyncs duo_sched duo_aligned _ S)
    as (T & _ & R & _).
  destruct (R eq_refl eq_refl) as [_ C].
  split; [rewrite T; reflexivity | rewrite C; reflexivity].
Defined.

(** X10. [startTimer] and [stopTimer] touch nothing but the timer and
    do nothing when there is none.  Whatever the timer's state, after
    [startTimer] it is enabled and armed at 5000 ms and after [stopTimer]
    it is disabled and disarmed, so the last of any two calls wins and
    each is idempotent. *)
Theorem timer_start_stop (me : TSCForger) :
  timer (startTimer me)
    = option_map (fun _ => mkTimer true (Some PERIODIC_SYNC_INTERVAL)) (timer me) /\
  timer (stopTimer me) = option_map (fun _ => mkTimer false None) (timer me) /\
  stopTimer (startTimer me) = stopTimer me /\
  startTimer (stopTimer me) = startTimer me /\
  startTimer (startTimer me) = startTimer me /\
  stopTimer (stopTimer me) = stopTimer me /\
  set_timer None (startTimer me) = set_timer None me /\
  set_timer None (stopTimer me) = set_timer None me.
Proof.
  destruct me as [cp tc aw sd sg te tt [t|]];
    unfold startTimer, stopTimer; simpl; by repeat split.
Qed.

Lemma trigger_asleep sched t m :
  systemAwake (self m) = false -> synchronised (self m) = false ->
  is_wake t = false ->
  exists m', trigger sched t m = Returns m' /\
    systemAwake (self m') = false /\ synchronised (self m') = false /\
    synchronising (self m') = synchronising (self m) /\
    cpus m' = cpus m /\
    calls m' = calls m ++ forwarded_asleep t.
Proof.
  intros Ha Hs Hw. destruct t as [|u p d|that point|secs us]; simpl in *.
  - destruct (timerAction_asleep sched m Ha) as (m' & -> & C & P & A & S & G & _).
    exists m'. rewrite app_nil_r. repeat split; congruence.
  - unfold wrapXcpmUrgency. rewrite Hs. simpl. exists m.
    by rewrite app_nil_r.
  - destruct (Z.eqb_spec point kIOPMTracePointSleepCPUs) as [->|Hns].
    + rewrite wrapTracePoint_sleep. eexists. split; [done|]. simpl.
      unfold stopTimer. simpl. by destruct (timer (self m)).
    + apply Z.eqb_neq in Hw. rewrite wrapTracePoint_other by done.
      eexists. split; [done|]. by simpl.
  - unfold wrapClockGetCalendarMicrotime. rewrite syncAll_early.
    + simpl. eexists. split; [done|]. by simpl.
    + unfold guard. by rewrite Ha.
Qed.

(** X11. While the system is asleep nothing resynchronises.  From a
    state with [systemAwake] and [synchronised] false, any sequence of
    timer firings, urgency calls, wall-clock reads and trace points other
    than the wake point returns, runs no round, leaves every core's
    registers and the gate untouched, keeps both flags false, forwards
    every trace point and wall-clock read to its original in order, and
    forwards no urgency call. *)
Theorem asleep_until_wake (ts : list (list nat * Trigger)) : forall (m : Machine),
  systemAwake (self m) = false -> synchronised (self m) = false ->
  forallb (fun st => negb (is_wake (snd st))) ts = true ->
  exists m', triggers ts m = Returns m' /\
    systemAwake (self m') = false /\ synchronised (self m') = false /\
    synchronising (self m') = synchronising (self m) /\
    cpus m' = cpus m /\
    calls m' = calls m ++ flat_map (fun st => forwarded_asleep (snd st)) ts.
Proof.
  induction ts as [|[sched t] ts IH]; intros m Ha Hs Hw; simpl in *.
  - exists m. by rewrite app_nil_r.
  - apply andb_true_iff in Hw as [Hw1 Hw2]. apply negb_true_iff in Hw1.
    destruct (trigger_asleep sched t m Ha Hs Hw1)
      as (m1 & -> & A1 & S1 & G1 & P1 & C1).
    simpl. destruct (IH m1 A1 S1 Hw2) as (m2 & -> & A2 & S2 & G2 & P2 & C2).
    exists m2. repeat split; try congruence.
    by rewrite C2, C1, <- app_assoc.
Qed.

Lemma asleep_until_wake_witness :
  calls (state_of (triggers
      [(duo_sched, TimerFires); (duo_sched, ClockRead 11 12);
       (duo_sched, Urgency 1 2 3); (duo_sched, TracePoint 7 0x19)]
      duo_asleep))
  = [OrgClockGetCalendarMicrotime 11 12; OrgTracePoint 7 0x19].
Proof.
  destruct (asleep_until_wake
      [(duo_sched, TimerFires); (duo_sched, ClockRead 11 12);
       (duo_sched, Urgency 1 2 3); (duo_sched, TracePoint 7 0x19)]
      duo_asleep eq_refl eq_refl eq_refl)
    as (m' & E & _ & _ & _ & _ & C).
  rewrite E. simpl. rewrite C. reflexivity.
Defined.

Lemma trigger_quiescent sched t m m' :
  quiescent (self m) -> trigger sched t m = Returns m' ->
  quiescent (self m') /\ caps (self m') = caps (self m) /\
  threadCount (self m') = threadCount (self m).
Proof.
  unfold quiescent. intros [Hg Hi].
  assert (Hsync : forall periodic x x',
    synchronising (self x) = false ->
    (synchronised (self x) = true -> systemAwake (self x) = true) ->
    syncAll sched periodic x = Returns x' ->
    (synchronising (self x') = false /\
     (synchronised (self x') = true -> systemAwake (self x') = true)) /\
    caps (self x') = caps (self x) /\ threadCount (self x') = threadCount (self x) /\
    timer (self x') = timer (self x)).
  { intros periodic x x' Xg Xi S.
    destruct (syncAll_returns_cases _ _ _ _ S)
      as [[G ->]|(G & Rs & Rg & Ra & Rt & Rc & Rn & _)]; [done|].
    pose proof (guard_awake _ _ G) as Ha.
    repeat split; try done. intros _. congruence. }
  destruct t as [|u p d|that point|secs us]; simpl.
  - unfold timerAction.
    destruct (syncAll sched true m) as [m1|m1] eqn:S; simpl; [|done].
    intros [= <-]. simpl. by destruct (Hsync _ _ _ Hg Hi S) as (? & ? & ? & ?).
  - unfold wrapXcpmUrgency. intros S.
    assert (E : self m' = self m).
    { clear Hi. destruct (synchronised (self m)); simpl in S; by injection S as <-. }
    rewrite E. by repeat split.
  - destruct (Z.eqb_spec point kIOPMTracePointSleepCPUs) as [->|Hns].
    + rewrite wrapTracePoint_sleep. intros [= <-]. simpl. unfold stopTimer. simpl.
      by destruct (timer (self m)).
    + destruct (Z.eqb_spec point kIOPMTracePointWakePlatformActions) as [->|Hnw].
      * rewrite wrapTracePoint_wake.
        destruct (syncAll sched false _) as [m1|m1] eqn:S; simpl; [|done].
        intros [= <-]. simpl.
        destruct (Hsync false (update_self (set_systemAwake true) m) m1 Hg
                    (fun _ => eq_refl) S) as (Q & C & N & _).
        rewrite startTimer_caps, startTimer_threadCount.
        split; [|done]. unfold startTimer. by destruct (timer (self m1)).
      * rewrite wrapTracePoint_other by done. by intros [= <-].
  - unfold wrapClockGetCalendarMicrotime.
    destruct (syncAll sched false m) as [m1|m1] eqn:S; simpl; [|done].
    intros [= <-]. simpl. by destruct (Hsync _ _ _ Hg Hi S) as (? & ? & ? & ?).
Qed.

(** X12. Served one after the other, the hooks and the timer keep the
    object quiescent between calls: whenever a sequence of triggers
    returns, no round is left in flight, alignment is not claimed valid
    while the system is marked asleep, and the capabilities and the
    thread count are those detected at initialisation. *)
Theorem triggers_keep_quiescent (ts : list (list nat * Trigger)) :
  forall (m m' : Machine),
  quiescent (self m) -> triggers ts m = Returns m' ->
  quiescent (self m') /\ caps (self m') = caps (self m) /\
  threadCount (self m') = threadCount (self m).
Proof.
  induction ts as [|[sched t] ts IH]; intros m m' Q; simpl.
  - by intros [= <-].
  - destruct (trigger sched t m) as [m1|m1] eqn:T; simpl; [|done].
    intros R. destruct (trigger_quiescent _ _ _ _ Q T) as (Q1 & C1 & N1).
    destruct (IH m1 m' Q1 R) as (Q2 & C2 & N2).
    repeat split; try apply Q2; congruence.
Qed.

Lemma triggers_keep_quiescent_witness :
  quiescent (self (state_of (triggers
      [(duo_sched, ClockRead 11 12); (duo_sched, TracePoint 7 kIOPMTracePointSleepCPUs);
       (duo_sched, TimerFires)] duo))).
Proof.
  assert (S : triggers
      [(duo_sched, ClockRead 11 12); (duo_sched, TracePoint 7 kIOPMTracePointSleepCPUs);
       (duo_sched, TimerFires)] duo
    = Returns (state_of (triggers
      [(duo_sched, ClockRead 11 12); (duo_sched, TracePoint 7 kIOPMTracePointSleepCPUs);
       (duo_sched, TimerFires)] duo)))
    by (vm_compute; reflexivity).
  assert (Q : quiescent (self duo)) by (split; [reflexivity | discriminate]).
  destruct (triggers_keep_quiescent _ duo _ Q S) as [H _]. exact H.
Defined.

(** ** Initialisation *)

Lemma land_nibble x : 0 <= Z.land x 0xF < 16.
Proof.
  change 0xF with (Z.ones 4). rewrite Z.land_ones by lia.
  apply Z.mod_pos_bound. lia.
Qed.

Lemma init_threadCount hw me :
  threadCount (init hw me)
  = threadCount (detect_fallback hw
      match cpuVendor hw with
      | VendorAMD => detect_amd hw me
      | VendorIntel => detect_intel hw me
      | VendorUnknown => me
      end).
Proof. unfold init. by rewrite startTimer_threadCount. Qed.

(** X13. After [init] the thread count is between 0 and 65535, and at
    most 256 unless the vendor is Intel.  It is 0 in exactly one case:
    the vendor branch left 0 and CPUID leaf 1 answers with the
    hyper-threading bit set and a logical-processor field of zero. *)
Theorem init_thread_count_range (hw : Hardware) :
  0 <= threadCount (init hw instance) <= 65535 /\
  (cpuVendor hw <> VendorIntel -> threadCount (init hw instance) <= 256) /\
  (threadCount (init hw instance) = 0 <->
     vendor_count hw = 0 /\
     exists r, getCpuid hw 1 0 = Some r /\
       Z.land (Z.lor (Z.shiftl (ecx r) 32) (edx r)) CPUID_FEATURE_HTT <> 0 /\
       Z.land (Z.shiftr (ebx r) 16) 0xFF = 0).
Proof.
  rewrite init_threadCount. fold (vendor_count hw).
  assert (Hv : 0 <= vendor_count hw <= 65535 /\
               (cpuVendor hw <> VendorIntel -> vendor_count hw <= 256)).
  { unfold vendor_count. destruct (cpuVendor hw); simpl.
    - split; [lia|]. intros _. lia.
    - unfold detect_amd.
      assert (H : 0 <= threadCount
        match getCpuid hw 0x80000008 0 with
        | Some r => set_threadCount (wrap32 (Z.land (ecx r) 0xFF + 1)) instance
        | None => instance
        end <= 256).
      { destruct (getCpuid hw 0x80000008 0) as [r|]; simpl; [|lia].
        pose proof (land_byte (ecx r)). unfold wrap32.
        rewrite Z.mod_small; lia. }
      destruct (getCpuid hw 1 0); simpl; lia.
    - split; [|done]. unfold detect_intel.
      destruct ((6 <? cpuFamily hw) || _); simpl; [|lia].
      pose proof (land_word (core_thread_count hw)). unfold wrap32.
      rewrite Z.mod_small; lia. }
  unfold vendor_count in *.
  set (me1 := match cpuVendor hw with
              | VendorAMD => detect_amd hw instance
              | VendorIntel => detect_intel hw instance
              | VendorUnknown => instance
              end) in *.
  destruct Hv as [Hr Hs]. unfold detect_fallback.
  destruct (Z.eqb_spec (threadCount me1) 0) as [Hz|Hnz].
  - destruct (getCpuid hw 1 0) as [r|] eqn:E; simpl.
    + pose proof (land_byte (Z.shiftr (ebx r) 16)) as Hb.
      destruct (Z.eqb_spec
        (Z.land (Z.lor (Z.shiftl (ecx r) 32) (edx r)) CPUID_FEATURE_HTT) 0)
        as [Hh|Hh]; simpl.
      * split; [lia|]. split; [lia|]. split; [lia|].
        intros (_ & r' & [= <-] & Hh' & _). done.
      * split; [lia|]. split; [lia|]. split.
        -- intros H0. split; [done|]. by exists r.
        -- by intros (_ & r' & [= <-] & _ & H0).
    + split; [lia|]. split; [lia|]. split; [lia|].
      by intros (_ & r' & ? & _).
  - split; [lia|]. split; [done|]. split; [lia|]. by intros [? _].
Qed.

(** X14. [init] writes only the capabilities, the thread count and the
    timer: whatever the hardware answers, the three status flags and the
    two round counters are as before.  The timer is enabled and armed at
    5000 ms when the event source could be created, and absent
    otherwise. *)
Theorem init_frame (hw : Hardware) (me : TSCForger) :
  systemAwake (init hw me) = systemAwake me /\
  synchronised (init hw me) = synchronised me /\
  synchronising (init hw me) = synchronising me /\
  threadsEngaged (init hw me) = threadsEngaged me /\
  targetTSC (init hw me) = targetTSC me /\
  timer (init hw me)
    = (if timer_created hw
       then Some (mkTimer true (Some PERIODIC_SYNC_INTERVAL)) else None).
Proof.
  assert (F : forall x,
    systemAwake (detect_fallback hw x) = systemAwake x /\
    synchronised (detect_fallback hw x) = synchronised x /\
    synchronising (detect_fallback hw x) = synchronising x /\
    threadsEngaged (detect_fallback hw x) = threadsEngaged x /\
    targetTSC (detect_fallback hw x) = targetTSC x).
  { intros x. unfold detect_fallback.
    destruct (threadCount x =? 0); [|done]. by destruct (getCpuid hw 1 0). }
  assert (V :
    let x := match cpuVendor hw with
             | VendorAMD => detect_amd hw me
             | VendorIntel => detect_intel hw me
             | VendorUnknown => me
             end in
    systemAwake x = systemAwake me /\ synchronised x = synchronised me /\
    synchronising x = synchronising me /\
    threadsEngaged x = threadsEngaged me /\ targetTSC x = targetTSC me).
  { destruct (cpuVendor hw); simpl; [done| |].
    - unfold detect_amd.
      destruct (getCpuid hw 0x80000008 0), (getCpuid hw 1 0); done.
    - unfold detect_intel. by destruct ((6 <? cpuFamily hw) || _). }
  simpl in V. unfold init.
  set (x := match cpuVendor hw with
            | VendorAMD => detect_amd hw me
            | VendorIntel => detect_intel hw me
            | VendorUnknown => me
            end) in *.
  destruct (F x) as (F1 & F2 & F3 & F4 & F5).
  destruct V as (V1 & V2 & V3 & V4 & V5).
  unfold startTimer. simpl.
  destruct (timer_created hw); simpl; repeat split; congruence.
Qed.

(** X15. The capabilities [init] detects, starting from the defaults.
    The frequency-lock capability is set exactly for an AMD part whose
    CPUID leaf 1 reports base family 0xF and an extended family of at
    least 8 (family 17h or later); the TSC-adjust capability exactly for
    an Intel part whose leaf 7 reports the bit.  Neither is ever set for
    the other vendor or for an unknown one. *)
Theorem init_capabilities (hw : Hardware) :
  (amd17h (caps (init hw instance)) = true <->
     cpuVendor hw = VendorAMD /\
     exists r, getCpuid hw 1 0 = Some r /\
       version_family (eax r) = 0xF /\ 8 <= version_extendedFamily (eax r)) /\
  (tscAdjust (caps (init hw instance)) = true <->
     cpuVendor hw = VendorIntel /\
     exists r, getCpuid hw 7 0 = Some r /\
       Z.land (ebx r) CPUID_LEAF7_TSC_ADJUST <> 0).
Proof.
  unfold init. rewrite startTimer_caps. simpl. rewrite detect_fallback_caps.
  destruct (cpuVendor hw); simpl.
  - split; split; try done; by intros [? _].
  - unfold detect_amd.
    assert (C : caps match getCpuid hw 0x80000008 0 with
                     | Some r => set_threadCount (wrap32 (Z.land (ecx r) 0xFF + 1)) instance
                     | None => instance
                     end = mkCaps false false)
      by (by destruct (getCpuid hw 0x80000008 0)).
    destruct (getCpuid hw 1 0) as [r|] eqn:E; simpl; rewrite C; simpl.
    + split; [|split; [done|by intros [? _]]].
      pose proof (land_nibble (Z.shiftr (eax r) 8)) as Hf.
      pose proof (land_byte (Z.shiftr (eax r) 20)) as He.
      unfold version_family, version_extendedFamily.
      destruct (Z.eqb_spec (Z.land (Z.shiftr (eax r) 8) 0xF) 0xF) as [Hx|Hx].
      * unfold wrap32. rewrite Z.mod_small by lia. rewrite Hx. split.
        -- intros H. apply Z.leb_le in H. split; [done|]. exists r.
           split; [done|]. split; [done|]. lia.
        -- intros (_ & r' & [= <-] & _ & H). apply Z.leb_le. lia.
      * split.
        -- intros H. apply Z.leb_le in H. lia.
        -- intros (_ & r' & [= <-] & H & _). done.
    + split; [|split; [done|by intros [? _]]].
      split; [done|]. by intros (_ & r' & ? & _).
  - unfold detect_intel.
    assert (C : forall x,
      caps (if (6 <? cpuFamily hw) || (cpuFamily hw =? 6) && (CPU_MODEL_PENRYN <? cpuModel hw)
            then set_threadCount (wrap32 (Z.land (core_thread_count hw) 0xFFFF))
                   (set_caps x instance)
            else set_caps x instance) = x).
    { intros x. by destruct ((6 <? cpuFamily hw) || _). }
    rewrite C. simpl. split; [split; [done|by intros [? _]]|].
    destruct (getCpuid hw 7 0) as [r|] eqn:E.
    + destruct (Z.eqb_spec (Z.land (ebx r) CPUID_LEAF7_TSC_ADJUST) 0) as [Hz|Hz]; simpl.
      * split; [done|]. by intros (_ & r' & [= <-] & H).
      * split; [|done]. intros _. split; [done|]. by exists r.
    + split; [done|]. by intros (_ & r' & ? & _).
Qed.

Lemma init_thread_count_bounds hw :
  0 <= threadCount (init hw instance) < 2 ^ 32.
Proof.
  rewrite init_threadCount. pose proof (detect_vendor_range hw) as Hv.
  simpl in Hv. unfold detect_fallback.
  destruct (threadCount _ =? 0); [|done].
  destruct (getCpuid hw 1 0) as [r|]; simpl; [|lia].
  pose proof (land_byte (Z.shiftr (ebx r) 16)).
  destruct (negb _); lia.
Qed.

Lemma init_status_flags hw me :
  systemAwake (init hw me) = systemAwake me /\
  synchronised (init hw me) = synchronised me /\
  synchronising (init hw me) = synchronising me.
Proof.
  unfold init, startTimer, detect_fallback, detect_amd, detect_intel. simpl.
  destruct (timer_created hw), (cpuVendor hw); simpl;
    repeat match goal with
    | |- context [match getCpuid ?h ?a ?b with _ => _ end] =>
        destruct (getCpuid h a b); simpl
    | |- context [if ?b then _ else _] => destruct b; simpl
    end; done.
Qed.

(** X16. The first call of [syncAll], made by [processPatcher] on the
    object as [init] leaves it, always gets past the guards and calls the
    rendezvous executor exactly once, before any route is requested.  If
    it returns, alignment is valid and the gate is free whether or not the
    routing then succeeds, and the hooks are in place exactly when the
    patcher accepts the requests.  With as many cores as the detected
    thread count it can return; with any other number of cores it never
    does, and no hook is ever installed. *)
Theorem boot_runs_first_round
    (hw : Hardware) (cores : list Core) (sched : list nat)
    (routeMultiple : list (string * Wrapper) -> bool) :
  let p := processPatcher sched routeMultiple (booted hw cores) in
  guard false (self (booted hw cores)) = false /\
  calls (patched_state p) = [MpRendezvousNoIntrs] /\
  (patch_returns p = true ->
     synchronised (self (patched_state p)) = true /\
     synchronising (self (patched_state p)) = false /\
     p = (if routeMultiple requests then HooksRouted (patched_state p)
          else RoutingFailed (patched_state p))) /\
  (cores <> [] -> Z.of_nat (length cores) < 2 ^ 32 ->
   Z.of_nat (length cores) <> threadCount (init hw instance) ->
   patch_returns p = false) /\
  (Z.of_nat (length cores) = threadCount (init hw instance) ->
   exists sched',
     patch_returns (processPatcher sched' routeMultiple (booted hw cores)) = true).
Proof.
  intros p.
  assert (G : guard false (self (booted hw cores)) = false).
  { destruct (init_status_flags hw instance) as (Ha & Hs & Hg).
    unfold guard, booted. simpl. by rewrite Ha, Hs, Hg. }
  pose proof (syncAll_round_spec sched false (booted hw cores) G) as R.
  split; [done|]. unfold p, processPatcher.
  split; [|split; [|split]].
  - destruct (syncAll sched false (booted hw cores)) as [m1|m1]; simpl in *.
    + destruct (routeMultiple requests); simpl; tauto.
    + tauto.
  - destruct (syncAll sched false (booted hw cores)) as [m1|m1]; simpl in *; [|done].
    intros _. destruct (routeMultiple requests); simpl; tauto.
  - intros Hne Hsize Hmis.
    pose proof (init_thread_count_bounds hw) as Hb.
    pose proof (syncAll_miscount sched false (booted hw cores) G Hne) as H.
    simpl in H. specialize (H ltac:(lia) Hsize Hmis).
    by destruct (syncAll sched false (booted hw cores)).
  - intros Hn.
    pose proof (init_thread_count_bounds hw) as Hb.
    destruct (syncAll_can_return false (booted hw cores)) as [sched' H];
      [done | simpl; lia |].
    exists sched'. unfold processPatcher.
    destruct (syncAll sched' false (booted hw cores)); [|done].
    by destruct (routeMultiple requests).
Qed.

(** ** Concurrent callers: redundant calls and the first round *)

Lemma redundant_step m c pc' m' :
  redundant_caller m c ->
  syncAll_step (arg_sched c) (arg_timer c) (at_pc c) m = (pc', m') ->
  m' = m /\ redundant_caller m (mkCaller (arg_timer c) (arg_sched c) pc').
Proof.
  unfold redundant_caller, redundant. destruct c as [t s pc]; simpl.
  destruct pc; simpl; try done.
  - intros [Ha|[Hs Ht]].
    + rewrite Ha. simpl. by intros [= <- <-].
    + destruct (systemAwake (self m)); simpl; by intros [= <- <-].
  - intros [Hs ->]. rewrite Hs. simpl. by intros [= <- <-].
  - by intros _ [= <- <-].
Qed.

Lemma idle_callers cs :
  (forall i c, cs !! i = Some c -> idle_pc (at_pc c) = true) ->
  rounds_performed cs = 0%nat /\ gate_holders cs = 0%nat.
Proof.
  induction cs as [|c cs IH]; intros H; simpl; [done|].
  pose proof (H 0%nat c eq_refl) as Hc.
  destruct IH as [-> ->]; [intros i d Hd; exact (H (S i) d Hd)|].
  by destruct (at_pc c).
Qed.

(** X17. Concurrent redundant calls do nothing.  While the system is
    asleep, or while alignment is valid and every caller is
    non-periodic, any number of overlapping calls of [syncAll], however
    they interleave, leave the whole machine exactly as it was: no caller
    reaches the exchange, none holds the gate and no round is performed. *)
Theorem redundant_callers_leave_machine
    (m : Machine) (args : list (bool * list nat)) (order : list nat) :
  (forall a, a ∈ args -> redundant m (fst a)) ->
  let k := interleave order (invoke m args) in
  machine k = m /\
  (forall i c, callers k !! i = Some c -> idle_pc (at_pc c) = true) /\
  rounds_performed (callers k) = 0%nat /\
  gate_holders (callers k) = 0%nat.
Proof.
  intros Hred k.
  assert (I : forall order k0,
    machine k0 = m ->
    (forall i c, callers k0 !! i = Some c -> redundant_caller m c) ->
    machine (interleave order k0) = m /\
    (forall i c, callers (interleave order k0) !! i = Some c -> redundant_caller m c)).
  { clear. induction order as [|i order IH]; intros k0 Hm Hc; [done|].
    simpl. apply IH.
    - destruct (callers k0 !! i) as [c|] eqn:E;
        [|unfold caller_step; by rewrite E].
      destruct (caller_step_lookup i k0 c E) as (pc' & m' & S & ->). simpl.
      rewrite Hm in S. by destruct (redundant_step m c pc' m' (Hc i c E) S).
    - intros j cj Ej.
      destruct (callers k0 !! i) as [c|] eqn:E;
        [|unfold caller_step in Ej; rewrite E in Ej; by eapply Hc].
      destruct (caller_step_lookup i k0 c E) as (pc' & m' & S & Heq).
      rewrite Heq in Ej. simpl in Ej. rewrite Hm in S.
      destruct (redundant_step m c pc' m' (Hc i c E) S) as [_ Hr].
      destruct (decide (i = j)) as [<-|Hne].
      + rewrite list_lookup_insert_eq in Ej by (by eapply lookup_lt_Some).
        by injection Ej as <-.
      + rewrite list_lookup_insert_ne in Ej by done. by eapply Hc. }
  destruct (I order (invoke m args)) as [Hm Hc]; [done| |].
  { intros i c E. unfold invoke in E. simpl in E.
    rewrite list_lookup_fmap in E.
    destruct (args !! i) as [a|] eqn:Ea; simpl in E; [|done].
    injection E as <-. unfold redundant_caller. simpl.
    apply Hred. by eapply list_elem_of_lookup_2. }
  assert (Hidle : forall i c, callers k !! i = Some c -> idle_pc (at_pc c) = true).
  { intros i c E. specialize (Hc i c E). unfold redundant_caller in Hc.
    by destruct (at_pc c). }
  split; [done|]. split; [done|]. by apply idle_callers.
Qed.

Lemma redundant_callers_leave_machine_witness :
  machine (interleave [0; 1; 1; 0; 2; 1]%nat
             (invoke duo_aligned [(false, duo_sched); (false, []); (false, duo_sched)]))
  = duo_aligned.
Proof.
  destruct (redundant_callers_leave_machine duo_aligned
              [(false, duo_sched); (false, []); (false, duo_sched)]
              [0; 1; 1; 0; 2; 1]%nat)
    as [H _]; [|exact H].
  intros a Ha. right. split; [reflexivity|].
  repeat (apply elem_of_cons in Ha as [->|Ha]; [reflexivity|]).
  by apply elem_of_nil in Ha.
Defined.

Lemma syncAll_step_valid sched periodic pc m pc' m' :
  syncAll_step sched periodic pc m = (pc', m') ->
  (pc = ReturnedAfterRound -> pc' = ReturnedAfterRound) /\
  (synchronised (self m') = true ->
   pc' = ReturnedAfterRound \/ synchronised (self m) = true).
Proof.
  pose proof (rendezvous_frame sched m) as ((_ & _ & _ & Fd & _) & _).
  destruct pc; simpl; intros S;
    repeat match type of S with
    | context [if ?b then _ else _] => destruct b
    | context [match ?r with Returns _ => _ | Hangs _ => _ end] => destruct r
    end;
    injection S as <- <-; simpl in *; (split; [done|]); intros H;
    first [by left | right; congruence].
Qed.

(** X18. Alignment is never marked valid before a round has completed.
    Starting with [synchronised] false, however the calls of K
    concurrent callers interleave, [synchronised] is true only if some
    caller has run its rendezvous to the end and returned from line 106. *)
Theorem alignment_only_after_a_round
    (m : Machine) (args : list (bool * list nat)) (order : list nat) :
  synchronised (self m) = false ->
  let k := interleave order (invoke m args) in
  synchronised (self (machine k)) = true ->
  exists i c, callers k !! i = Some c /\ at_pc c = ReturnedAfterRound.
Proof.
  intros Hs k.
  assert (I : forall order k0,
    (synchronised (self (machine k0)) = true ->
     exists i c, callers k0 !! i = Some c /\ at_pc c = ReturnedAfterRound) ->
    synchronised (self (machine (interleave order k0))) = true ->
    exists i c, callers (interleave order k0) !! i = Some c /\
                at_pc c = ReturnedAfterRound).
  { clear. induction order as [|i order IH]; intros k0 J; [done|].
    simpl. apply IH. clear IH.
    destruct (callers k0 !! i) as [c|] eqn:E;
      [|unfold caller_step; by rewrite E].
    destruct (caller_step_lookup i k0 c E) as (pc' & m' & S & ->). simpl.
    assert (Hi : (i < length (callers k0))%nat) by (by eapply lookup_lt_Some).
    destruct (syncAll_step_valid _ _ _ _ _ _ S) as [Hkeep Hval].
    intros V. destruct (Hval V) as [->|V0].
    - exists i. eexists. by rewrite list_lookup_insert_eq.
    - destruct (J V0) as (j & cj & Ej & Pj).
      destruct (decide (i = j)) as [<-|Hne].
      + exists i. eexists. rewrite list_lookup_insert_eq by done.
        split; [done|]. simpl. apply Hkeep. congruence.
      + exists j, cj. by rewrite list_lookup_insert_ne. }
  apply I. simpl. congruence.
Qed.

Lemma alignment_only_after_a_round_witness :
  exists i c,
    callers (interleave back_to_back_order duo_periodic_callers) !! i = Some c /\
    at_pc c = ReturnedAfterRound.
Proof.
  assert (V : synchronised (self (machine
                (interleave back_to_back_order duo_periodic_callers))) = true)
    by (vm_compute; reflexivity).
  exact (alignment_only_after_a_round duo
           [(true, duo_sched); (true, duo_sched)] back_to_back_order eq_refl V).
Defined.

(** * The orchestrator past its guards, and overlapping calls *)

(** ** One call of [syncAll] *)

(** C2. [syncAll] returns at once, with the machine untouched and the
    rendezvous executor not called, exactly when the system is not awake,
    or the call is not periodic and alignment is valid, or the gate is
    already held.  A non-periodic call with alignment valid is a no-op,
    and whether a periodic call attempts a round does not depend on
    [synchronised].  In every other case the exchange finds the gate free
    and claims it, the call marks alignment invalid and zeroes the two
    round counters, and the executor is called once on that state: every
    core of the machine runs [sync] under the given interleaving, the
    call returns exactly when all of them have returned, and it then
    releases the gate and marks alignment valid.  With as many cores as
    the thread count some interleaving lets the call return, and a call
    that returns has left every counter at the maximum of the counters
    it found. *)
Theorem syncAll_guard (sched : list nat) (timer : bool) (m : Machine) :
  (guard timer (self m) = true <->
     systemAwake (self m) = false \/
     (timer = false /\ synchronised (self m) = true) \/
     synchronising (self m) = true) /\
  (guard timer (self m) = true <-> made_calls m (syncAll sched timer m) []) /\
  (guard timer (self m) = true -> syncAll sched timer m = Returns m) /\
  (guard timer (self m) = false ->
     made_calls m (syncAll sched timer m) [MpRendezvousNoIntrs]) /\
  (synchronised (self m) = true -> syncAll sched false m = Returns m) /\
  (forall b,
     made_calls (update_self (set_synchronised b) m)
       (syncAll sched true (update_self (set_synchronised b) m))
       [MpRendezvousNoIntrs]
     <-> made_calls m (syncAll sched true m) [MpRendezvousNoIntrs]) /\
  (guard timer (self m) = false ->
     let m1 := update_self (set_synchronising true) m in
     let m2 := update_self (set_synchronised false) m1 in
     let m3 := update_self (set_threadsEngaged 0) m2 in
     let m4 := update_self (set_targetTSC 0) m3 in
     let r := run_schedule sched (enter_rendezvous (self m4) (cpus m)) in
     exchange_synchronising true m = (false, m1) /\
     syncAll_steps 3 sched timer AtLoadAwake m = (AtClearSynchronised, m1) /\
     syncAll_steps 6 sched timer AtLoadAwake m = (AtRendezvous, m4) /\
     syncAll sched timer m =
       (mp_rendezvous_no_intrs sched m4 >>> fun m5 =>
        Returns (update_self (set_synchronised true)
                  (update_self (set_synchronising false) m5))) /\
     length (engines r) = length (cpus m) /\
     returns (syncAll sched timer m) = all_returned r /\
     cpus (state_of (syncAll sched timer m)) = snd <$> engines r /\
     self (state_of (syncAll sched timer m)) =
       (if all_returned r
        then set_synchronised true (set_synchronising false (shared r))
        else shared r) /\
     synchronising (shared r) = true /\ synchronised (shared r) = false) /\
  (guard timer (self m) = false ->
   Forall valid_tsc (cpus m) ->
   Z.of_nat (length (cpus m)) = threadCount (self m) ->
   threadCount (self m) < 2 ^ 32 ->
   (exists sched', returns (syncAll sched' timer m) = true) /\
   forall m', syncAll sched timer m = Returns m' ->
     synchronised (self m') = true /\ synchronising (self m') = false /\
     forall i c, cpus m' !! i = Some c ->
       is_maximum (msr_tsc c) (msr_tsc <$> cpus m) /\
       msr_tsc c = targetTSC (self m')).
Proof.
  assert (Hnil : forall t (x : Machine),
    made_calls x (syncAll sched t x) [] <-> guard t (self x) = true).
  { intros t x. destruct (guard t (self x)) eqn:G.
    - rewrite syncAll_early by done. unfold made_calls. simpl.
      by rewrite app_nil_r.
    - pose proof (syncAll_round_calls sched t x G) as C. unfold made_calls in *.
      split; [|done]. intros C'. rewrite C in C'.
      apply (f_equal length) in C'. rewrite !length_app in C'. simpl in C'. lia. }
  assert (Hone : forall t (x : Machine),
    made_calls x (syncAll sched t x) [MpRendezvousNoIntrs] <-> guard t (self x) = false).
  { intros t x. destruct (guard t (self x)) eqn:G.
    - rewrite syncAll_early by done. unfold made_calls. simpl.
      split; [|done]. intros C. apply (f_equal length) in C.
      rewrite length_app in C. simpl in C. lia.
    - split; [done|]. intros _. by apply syncAll_round_calls. }
  split; [|split; [|split; [|split; [|split; [|split; [|split]]]]]].
  - unfold guard.
    destruct (systemAwake (self m)), timer, (synchronised (self m)),
      (synchronising (self m)); simpl; intuition congruence.
  - by rewrite Hnil.
  - apply syncAll_early.
  - apply syncAll_round_calls.
  - intros H. apply syncAll_early. unfold guard. rewrite H.
    by destruct (systemAwake (self m)).
  - intros b. rewrite !Hone. unfold guard. simpl.
    by destruct (systemAwake (self m)).
  - intros G m1 m2 m3 m4 r.
    destruct (syncAll_program_order sched timer m G) as (S3 & _ & _ & S6 & _).
    pose proof (syncAll_round sched timer m G) as R.
    assert (Hfree : synchronising (self m) = false).
    { unfold guard in G. destruct (synchronising (self m)); [|done].
      by rewrite orb_true_r in G. }
    assert (F : same_flags (self m4) (shared r)).
    { exact (run_schedule_flags sched (enter_rendezvous (self m4) (cpus m))). }
    destruct F as (_ & _ & _ & Fd & Fg & _).
    split; [unfold exchange_synchronising; by rewrite Hfree|].
    split; [exact S3|]. split; [exact S6|]. split; [exact R|].
    split.
    { unfold r. rewrite run_schedule_length. simpl. by rewrite length_fmap. }
    rewrite R. unfold mp_rendezvous_no_intrs.
    subst r m4 m3 m2 m1. cbn [self cpus log_call update_self] in *.
    set (r := run_schedule sched _) in *.
    destruct (all_returned r); simpl; repeat split; by rewrite <- ?Fg, <- ?Fd.
  - intros G Hv Hn Hlt. split; [by apply syncAll_can_return|].
    intros m' E.
    pose proof (syncAll_round_spec sched timer m G) as Sp. rewrite E in Sp.
    destruct Sp as (Sd & Sg & _).
    split; [done|]. split; [done|].
    by eapply syncAll_aligns.
Qed.

Lemma syncAll_guard_witness :
  guard false (self duo) = false /\
  returns (syncAll duo_sched false duo) = true /\
  msr_tsc <$> cpus (state_of (syncAll duo_sched false duo)) = [900; 900] /\
  synchronising (self (snd (exchange_synchronising true duo))) = true.
Proof.
  destruct (syncAll_guard duo_sched false duo) as (_ & _ & _ & _ & _ & _ & H & _).
  destruct (H eq_refl) as (Hx & _ & _ & _ & _ & Hr & Hc & _).
  split; [reflexivity|]. split; [|split].
  - rewrite Hr. vm_compute. reflexivity.
  - rewrite Hc. vm_compute. reflexivity.
  - rewrite Hx. reflexivity.
Defined.

(** ** Overlapping calls of [syncAll] *)























(** ** A sleep event that overtakes a call of [syncAll] *)

(** C6 fails on the code when the sleep event arrives while a call of
    [syncAll] is in flight.  The timer thread has loaded [systemAwake]
    (line 89) when the sleep point is served: the wrapper clears
    [systemAwake] and [synchronised], stops the timer and forwards the
    call.  The timer thread, past its only test of [systemAwake], then
    claims the gate and runs its round after the sleep event, and its
    store of line 105 marks alignment valid while the system is marked
    asleep, so that the urgency wrapper forwards calls.  The wake point
    that follows sets [systemAwake] and calls [syncAll], which finds
    [synchronised] true and returns on line 90: the wake runs no round. *)
Theorem sleep_overtakes_inflight_round :
  machine timer_inflight = duo_aligned /\
  at_pc <$> callers timer_inflight = [AtLoadSynchronised] /\
  systemAwake (self (machine asleep_inflight)) = false /\
  synchronised (self (machine asleep_inflight)) = false /\
  timer (self (machine asleep_inflight)) = Some (mkTimer false None) /\
  calls (machine asleep_inflight) = [OrgTracePoint 7 kIOPMTracePointSleepCPUs] /\
  at_pc <$> callers (interleave [0; 0]%nat asleep_inflight) = [AtClearSynchronised] /\
  at_pc <$> callers round_while_asleep = [ReturnedAfterRound] /\
  calls (machine round_while_asleep)
    = [OrgTracePoint 7 kIOPMTracePointSleepCPUs; MpRendezvousNoIntrs] /\
  systemAwake (self (machine round_while_asleep)) = false /\
  synchronised (self (machine round_while_asleep)) = true /\
  synchronising (self (machine round_while_asleep)) = false /\
  wrapXcpmUrgency 1 2 3 (machine round_while_asleep)
    = Returns (log_call (OrgXcpmUrgency 1 2 3) (machine round_while_asleep)) /\
  guard false (self (update_self (set_systemAwake true) (machine round_while_asleep)))
    = true /\
  wrapTracePoint duo_sched 7 kIOPMTracePointWakePlatformActions
    (machine round_while_asleep)
    = Returns (log_call (OrgTracePoint 7 kIOPMTracePointWakePlatformActions)
                 (update_self startTimer
                    (update_self (set_systemAwake true)
                       (machine round_while_asleep)))) /\
  calls (state_of (wrapTracePoint duo_sched 7 kIOPMTracePointWakePlatformActions
                     (machine round_while_asleep)))
    = calls (machine round_while_asleep)
      ++ [OrgTracePoint 7 kIOPMTracePointWakePlatformActions].
Proof. by vm_compute. Qed.
